(** * jsonExporter: the graph builder of [JSONExporter.py]

    A shallow embedding of [generate_graph_from_package] and of the five
    closures it is made of, followed by the properties of the traversal:
    absence of duplicate nodes and edges, single expansion of diagrams,
    handling of identifiers that do not resolve, and independence of the
    result from the representation of the visited sets. *)

From Stdlib Require Import Ascii.
From stdpp Require Import base gmap sets list strings pretty.

Local Open Scope Z_scope.
#[local] Set Warnings "-clear-no-such-hyp".

(** ** The model source (the objects handed out by the repository) *)

Record Attribute := {
  AttributeID : Z;
  attr_Name : string;
  attr_Type : string;
  attr_Default : string
}.

(** A placement of an element on a diagram.  The four coordinates are read
    with [getattr(diag_object, "left", None)], hence optional. *)
Record DiagramObject := {
  do_ElementID : Z;
  do_left : option Z;
  do_right : option Z;
  do_top : option Z;
  do_bottom : option Z
}.

Record Diagram := {
  DiagramID : Z;
  diag_Name : string;
  DiagramObjects : list DiagramObject
}.

Record Connector := {
  ClientID : Z;
  SupplierID : Z;
  conn_Type : string;
  conn_Name : string
}.

Record Element := {
  ElementID : Z;
  elem_Name : string;
  elem_Type : string;
  Attributes : list Attribute;
  ClassifierID : Z;
  PackageID : Z;
  Diagrams : list Diagram;
  Connectors : list Connector
}.

Record Package := {
  pkg_Name : string;
  pkg_Diagrams : list Diagram
}.

(** [repository.GetElementByID] and [repository.GetPackageByID] are lookups
    in two finite tables; a failed lookup is [None]. *)
Record Repository := {
  Elements : gmap Z Element;
  Packages : gmap Z Package
}.

Definition GetElementByID (repository : Repository) (i : Z) : option Element :=
  Elements repository !! i.

Definition GetPackageByID (repository : Repository) (i : Z) : option Package :=
  Packages repository !! i.

(** ** The output graph *)

Record AttrRecord := {
  ar_id : Z;
  ar_name : string;
  ar_type : string;
  ar_default : string
}.

Record Position := {
  pos_left : option Z;
  pos_right : option Z;
  pos_top : option Z;
  pos_bottom : option Z
}.

(** The dictionaries appended to [graph["nodes"]], and the diagram records
    nested in them.  A node is complete before it is stored anywhere (in a
    diagram's element list, in [graph["nodes"]] or in [processed_elements])
    and is not written to afterwards, so a node is modelled by its value. *)
Inductive Node :=
  | ElementNode (id : Z) (name type : string) (attributes : list AttrRecord)
      (linkedDiagrams : list DiagramNode) (position : option Position)
  | ExternalNode (id : Z) (name type : string) (package : option string)
      (attributes : list AttrRecord)
  | PackageNode (name type : string) (diagrams : list DiagramNode)
with DiagramNode :=
  | MkDiagramNode (id name type : string) (elements : list Node).

Record Edge := {
  edge_from : Z;
  edge_to : Z;
  edge_type : string;
  edge_name : string
}.

Record Graph := {
  nodes : list Node;
  edges : list Edge
}.

(** The ["id"] of a node; package nodes carry none. *)
Definition node_id (n : Node) : option Z :=
  match n with
  | ElementNode id _ _ _ _ _ => Some id
  | ExternalNode id _ _ _ _ => Some id
  | PackageNode _ _ _ => None
  end.

Definition diagram_node_id (d : DiagramNode) : string :=
  match d with MkDiagramNode id _ _ _ => id end.

(** The elements that the placements of a diagram resolve to. *)
Definition resolvable_placements (repository : Repository) (d : Diagram)
    : list Element :=
  omap (λ diag_object, GetElementByID repository (do_ElementID diag_object))
    (DiagramObjects d).

(** The diagram records listed directly under a node. *)
Definition node_diagrams (n : Node) : list DiagramNode :=
  match n with
  | ElementNode _ _ _ _ linkedDiagrams _ => linkedDiagrams
  | ExternalNode _ _ _ _ _ => []
  | PackageNode _ _ diagrams => diagrams
  end.

(** The ["id"]s of the element and external nodes of a list of nodes, in
    order. *)
Definition node_ids (ns : list Node) : list Z := omap node_id ns.

(** The ["id"]s of the diagram records listed directly under the nodes of a
    list.  Every diagram that is expanded is listed under the node of the
    element, or of the package, that reached it first, and that node is in
    [graph["nodes"]]; the further occurrences of a diagram record in the
    serialised graph are the occurrences of that node in element lists. *)
Definition listed_diagrams (ns : list Node) : list string :=
  ns ≫= (λ n, diagram_node_id <$> node_diagrams n).

(** The composite identity of an edge. *)
Definition edge_triple (e : Edge) : Z * Z * string :=
  (edge_from e, edge_to e, edge_type e).

(** ** Python sets

    The traversal only ever builds a set with [set()], adds to it and tests
    membership; it never iterates over one.  The sets are kept behind this
    interface, instantiated below by [gset] and by insertion-ordered
    lists. *)
Class PySet (K S : Type) := {
  set_new : S;
  set_add : K → S → S;
  set_in : K → S → bool
}.
Global Hint Mode PySet - ! : typeclass_instances.

Class PySetLaws (K S : Type) `{EqDecision K, !PySet K S} : Prop := {
  set_in_new (k : K) : set_in k (set_new : S) = false;
  set_in_add (k k' : K) (s : S) :
    set_in k (set_add k' s) = bool_decide (k = k') || set_in k s
}.

Global Instance gset_PySet `{Countable K} : PySet K (gset K) := {
  set_new := ∅;
  set_add k s := {[k]} ∪ s;
  set_in k s := bool_decide (k ∈ s)
}.

Global Instance list_PySet `{EqDecision K} : PySet K (list K) := {
  set_new := [];
  set_add k s := if bool_decide (k ∈ s) then s else s ++ [k];
  set_in k s := bool_decide (k ∈ s)
}.

(** ** Traversal state and results *)

(** The variables captured by the closures of [generate_graph_from_package]. *)
Record State (SZ SS : Type) := mkState {
  graph_nodes : list Node;
  graph_edges : list Edge;
  visited_elements : SZ;
  visited_diagrams : SZ;
  edge_set : SS;
  processed_elements : gmap Z Node
}.
Global Arguments mkState {_ _} _ _ _ _ _ _.
Global Arguments graph_nodes {_ _} _.
Global Arguments graph_edges {_ _} _.
Global Arguments visited_elements {_ _} _.
Global Arguments visited_diagrams {_ _} _.
Global Arguments edge_set {_ _} _.
Global Arguments processed_elements {_ _} _.

(** [sourceElement.ElementID] on [None] raises [AttributeError]. *)
Inductive exception := AttributeError.

(** [OutOfFuel] belongs to the model only: the recursion of
    [process_element] is bounded by a counter, shown below never to run
    out.  The recursion limit of the interpreter is not modelled. *)
Inductive result (A : Type) :=
  | Ok (a : A)
  | Raise (e : exception)
  | OutOfFuel.
Global Arguments Ok {_} _.
Global Arguments Raise {_} _.
Global Arguments OutOfFuel {_}.

Definition M (SZ SS A : Type) : Type := State SZ SS → result (A * State SZ SS).

Definition ret {SZ SS A} (a : A) : M SZ SS A := λ st, Ok (a, st).

Definition bind {SZ SS A B} (m : M SZ SS A) (f : A → M SZ SS B) : M SZ SS B :=
  λ st, match m st with
        | Ok (a, st') => f a st'
        | Raise e => Raise e
        | OutOfFuel => OutOfFuel
        end.

Definition raise {SZ SS A} (e : exception) : M SZ SS A := λ _, Raise e.

Definition out_of_fuel {SZ SS A} : M SZ SS A := λ _, OutOfFuel.

Definition gets {SZ SS A} (f : State SZ SS → A) : M SZ SS A := λ st, Ok (f st, st).

Definition modify {SZ SS} (f : State SZ SS → State SZ SS) : M SZ SS unit :=
  λ st, Ok (tt, f st).

Declare Scope py_scope.
Delimit Scope py_scope with py.
Notation "x <- m ;; k" := (bind m (λ x, k))
  (at level 100, m at next level, right associativity) : py_scope.
Notation "m ;; k" := (bind m (λ _, k))
  (at level 100, right associativity) : py_scope.
Local Open Scope py_scope.

(** [str(i)] for an integer, and the two string keys the code builds. *)
Definition str (i : Z) : string := pretty i.

Definition diagram_key (i : Z) : string := "D" +:+ str i.

Definition edgeID (source target : Z) (type : string) : string :=
  str source +:+ "-" +:+ str target +:+ "-" +:+ type.

(** The key under which an edge of the graph was recorded in [edge_set]. *)
Definition edge_key (e : Edge) : string :=
  edgeID (edge_from e) (edge_to e) (edge_type e).

Section traversal.
Context {SZ SS : Type} `{!PySet Z SZ, !PySet string SS}.
Variable repository : Repository.

Local Abbreviation St := (State SZ SS).
Local Abbreviation Py := (M SZ SS).

(** *** The assignments and [append]s of the closures *)

Definition append_node (n : Node) : Py unit :=
  modify (λ st, mkState (graph_nodes st ++ [n]) (graph_edges st)
    (visited_elements st) (visited_diagrams st) (edge_set st)
    (processed_elements st)).

Definition append_edge (e : Edge) : Py unit :=
  modify (λ st, mkState (graph_nodes st) (graph_edges st ++ [e])
    (visited_elements st) (visited_diagrams st) (edge_set st)
    (processed_elements st)).

Definition visit_element (i : Z) : Py unit :=
  modify (λ st, mkState (graph_nodes st) (graph_edges st)
    (set_add i (visited_elements st)) (visited_diagrams st) (edge_set st)
    (processed_elements st)).

Definition visit_diagram (i : Z) : Py unit :=
  modify (λ st, mkState (graph_nodes st) (graph_edges st)
    (visited_elements st) (set_add i (visited_diagrams st)) (edge_set st)
    (processed_elements st)).

Definition add_edge_id (k : string) : Py unit :=
  modify (λ st, mkState (graph_nodes st) (graph_edges st)
    (visited_elements st) (visited_diagrams st) (set_add k (edge_set st))
    (processed_elements st)).

Definition record_processed (i : Z) (n : Node) : Py unit :=
  modify (λ st, mkState (graph_nodes st) (graph_edges st)
    (visited_elements st) (visited_diagrams st) (edge_set st)
    (<[i := n]> (processed_elements st))).

(** *** The attribute loop shared by elements and classifiers *)

Definition attribute_record (attribute : Attribute) : AttrRecord :=
  {| ar_id := AttributeID attribute;
     ar_name := attr_Name attribute;
     ar_type := attr_Type attribute;
     ar_default := attr_Default attribute |}.

Definition attribute_records (attributes : list Attribute) : list AttrRecord :=
  attribute_record <$> attributes.

Definition position_of (diag_object : DiagramObject) : Position :=
  {| pos_left := do_left diag_object;
     pos_right := do_right diag_object;
     pos_top := do_top diag_object;
     pos_bottom := do_bottom diag_object |}.

(** *** [process_external_classifier] *)

Definition external_node (classifier : Element) : Node :=
  ExternalNode (ElementID classifier) (elem_Name classifier)
    (elem_Type classifier)
    (pkg_Name <$> GetPackageByID repository (PackageID classifier))
    (attribute_records (Attributes classifier)).

Definition process_external_classifier (classifierID : Z) : Py unit :=
  match GetElementByID repository classifierID with
  | Some classifier =>
      visited <- gets visited_elements;;
      if negb (set_in (ElementID classifier) visited) then
        let externalNode := external_node classifier in
        append_node externalNode;;
        visit_element (ElementID classifier);;
        record_processed (ElementID classifier) externalNode
      else ret tt
  | None => ret tt
  end.

(** *** [add_edges_from_element] *)

(** One iteration of the loop over [element.Connectors].  The f-string
    reads [sourceElement.ElementID] first, then [targetElement.ElementID];
    either raises [AttributeError] when the lookup returned [None]. *)
Definition add_edge_from_connector (connector : Connector) : Py unit :=
  let sourceElement := GetElementByID repository (ClientID connector) in
  let targetElement := GetElementByID repository (SupplierID connector) in
  match sourceElement with
  | None => raise AttributeError
  | Some sourceElement =>
      match targetElement with
      | None => raise AttributeError
      | Some targetElement =>
          let edgeID := edgeID (ElementID sourceElement)
                          (ElementID targetElement) (conn_Type connector) in
          seen <- gets edge_set;;
          if negb (set_in edgeID seen) then
            append_edge {| edge_from := ElementID sourceElement;
                           edge_to := ElementID targetElement;
                           edge_type := conn_Type connector;
                           edge_name := conn_Name connector |};;
            add_edge_id edgeID
          else ret tt
      end
  end.

Fixpoint add_edges_from_connectors (connectors : list Connector) : Py unit :=
  match connectors with
  | [] => ret tt
  | connector :: rest =>
      add_edge_from_connector connector;;
      add_edges_from_connectors rest
  end.

Definition add_edges_from_element (element : Element) : Py unit :=
  add_edges_from_connectors (Connectors element).

(** *** The loops over diagram objects

    Both loops are parameterised by the recursive call to
    [process_element].  They return the list that the code builds by
    successive [append]s. *)
Section with_process_element.
Variable process_element : Element → option DiagramObject → Py (option Node).

(** The body of [for e in range(mainDiagram.DiagramObjects.Count)]. *)
Fixpoint main_diagram_elements (objects : list DiagramObject)
  : Py (list Node) :=
  match objects with
  | [] => ret []
  | diag_object :: rest =>
      match GetElementByID repository (do_ElementID diag_object) with
      | None => main_diagram_elements rest
      | Some diag_element =>
          visited <- gets visited_elements;;
          if negb (set_in (ElementID diag_element) visited) then
            processedElement <- process_element diag_element (Some diag_object);;
            match processedElement with
            | Some node =>
                elements <- main_diagram_elements rest;;
                ret (node :: elements)
            | None => main_diagram_elements rest
            end
          else main_diagram_elements rest
      end
  end.

(** The body of [for e in range(diagram.DiagramObjects.Count)]. *)
Fixpoint linked_diagram_elements (objects : list DiagramObject)
  : Py (list Node) :=
  match objects with
  | [] => ret []
  | diag_object :: rest =>
      visited <- gets visited_elements;;
      match GetElementByID repository (do_ElementID diag_object) with
      | Some diag_element =>
          if negb (set_in (ElementID diag_element) visited) then
            processedElement <- process_element diag_element (Some diag_object);;
            match processedElement with
            | Some node =>
                elements <- linked_diagram_elements rest;;
                ret (node :: elements)
            | None => linked_diagram_elements rest
            end
          else linked_diagram_elements rest
      | None => linked_diagram_elements rest
      end
  end.

(** [process_linked_diagrams]; the result is what the code appends to
    [node["linkedDiagrams"]]. *)
Fixpoint process_linked_diagrams_of (diagrams : list Diagram)
  : Py (list DiagramNode) :=
  match diagrams with
  | [] => ret []
  | diagram :: rest =>
      visited <- gets visited_diagrams;;
      if set_in (DiagramID diagram) visited then
        process_linked_diagrams_of rest
      else
        visit_diagram (DiagramID diagram);;
        elementsInDiagram <- linked_diagram_elements (DiagramObjects diagram);;
        linked <- process_linked_diagrams_of rest;;
        ret (MkDiagramNode (diagram_key (DiagramID diagram))
               (diag_Name diagram) "Diagram" elementsInDiagram :: linked)
  end.

Definition process_linked_diagrams (element : Element)
  : Py (list DiagramNode) :=
  process_linked_diagrams_of (Diagrams element).

(** [process_main_diagram] *)
Definition process_main_diagram (package : Package) : Py unit :=
  match pkg_Diagrams package with
  | [] => ret tt
  | mainDiagram :: _ =>
      visit_diagram (DiagramID mainDiagram);;
      elements <- main_diagram_elements (DiagramObjects mainDiagram);;
      append_node (PackageNode (pkg_Name package) "Package"
        [MkDiagramNode (diagram_key (DiagramID mainDiagram))
           (diag_Name mainDiagram) "Diagram" elements])
  end.
End with_process_element.

(** *** [process_element] *)

Definition element_node (element : Element) (diag_object : option DiagramObject)
    (linkedDiagrams : list DiagramNode) : Node :=
  ElementNode (ElementID element) (elem_Name element) (elem_Type element)
    (attribute_records (Attributes element)) linkedDiagrams
    (position_of <$> diag_object).

Fixpoint process_element (fuel : nat) (element : Element)
    (diag_object : option DiagramObject) : Py (option Node) :=
  match fuel with
  | O => out_of_fuel
  | S fuel =>
      visited <- gets visited_elements;;
      if set_in (ElementID element) visited then
        gets (λ st, processed_elements st !! ElementID element)
      else
        visit_element (ElementID element);;
        (if bool_decide (ClassifierID element ≠ 0)
         then process_external_classifier (ClassifierID element)
         else ret tt);;
        linkedDiagrams <- process_linked_diagrams (process_element fuel) element;;
        add_edges_from_element element;;
        let node := element_node element diag_object linkedDiagrams in
        append_node node;;
        record_processed (ElementID element) node;;
        ret (Some node)
  end.

(** *** [generate_graph_from_package] *)

Definition initial_state : St :=
  mkState [] [] set_new set_new set_new ∅.

(** Every call of [process_element] that gets past the visited test marks
    a new element of the repository, so the nesting depth of the calls is
    at most the number of entries of [Elements]. *)
Definition traversal_fuel : nat := S (size (Elements repository)).

Definition run_traversal (fuel : nat) (ea_pkg : Package) : result Graph :=
  match process_main_diagram (process_element fuel) ea_pkg initial_state with
  | Ok (_, st) => Ok {| nodes := graph_nodes st; edges := graph_edges st |}
  | Raise e => Raise e
  | OutOfFuel => OutOfFuel
  end.
End traversal.

(** The export with a given implementation of the three sets. *)
Definition generate_graph_from_package_with (SZ SS : Type)
    `{!PySet Z SZ, !PySet string SS}
    (ea_pkg : Package) (repository : Repository) : result Graph :=
  run_traversal (SZ:=SZ) (SS:=SS) repository (traversal_fuel repository) ea_pkg.

(** [generate_graph_from_package], with [gset]s for the three sets. *)
Definition generate_graph_from_package
    (ea_pkg : Package) (repository : Repository) : result Graph :=
  generate_graph_from_package_with (gset Z) (gset string) ea_pkg repository.

Abbreviation GState := (State (gset Z) (gset string)).

(** * A sample model

    A package whose main diagram places [Customer], [Order], [Customer]
    again, an identifier that does not resolve, and the enumeration that
    [Order] and [Invoice] use as classifier.  [Order] links a second
    diagram and owns three connectors, two of which share their ends and
    their type; [Supplier] is on no diagram. *)
Module Sample.

Definition placement (i : Z) : DiagramObject :=
  {| do_ElementID := i; do_left := Some 10; do_right := Some 110;
     do_top := Some (-20); do_bottom := Some (-80) |}.

Definition overview : Diagram :=
  {| DiagramID := 7; diag_Name := "Overview";
     DiagramObjects := [placement 1; placement 2; placement 1; placement 404;
                        placement 9] |}.

Definition details : Diagram :=
  {| DiagramID := 8; diag_Name := "Details";
     DiagramObjects := [placement 1; placement 2; placement 3; placement 404] |}.

Definition states : Diagram :=
  {| DiagramID := 10; diag_Name := "States"; DiagramObjects := [placement 5] |}.

Definition Customer : Element :=
  {| ElementID := 1; elem_Name := "Customer"; elem_Type := "Class";
     Attributes := [{| AttributeID := 11; attr_Name := "name";
                       attr_Type := "String"; attr_Default := "" |}];
     ClassifierID := 0; PackageID := 100; Diagrams := []; Connectors := [] |}.

Definition uses : Connector :=
  {| ClientID := 1; SupplierID := 2; conn_Type := "Association";
     conn_Name := "uses" |}.

Definition places : Connector :=
  {| ClientID := 1; SupplierID := 2; conn_Type := "Association";
     conn_Name := "places" |}.

Definition needs : Connector :=
  {| ClientID := 2; SupplierID := 5; conn_Type := "Dependency";
     conn_Name := "needs" |}.

Definition Order : Element :=
  {| ElementID := 2; elem_Name := "Order"; elem_Type := "Class";
     Attributes := []; ClassifierID := 9; PackageID := 100;
     Diagrams := [details]; Connectors := [uses; places; needs] |}.

Definition Invoice : Element :=
  {| ElementID := 3; elem_Name := "Invoice"; elem_Type := "Class";
     Attributes := []; ClassifierID := 9; PackageID := 100;
     Diagrams := [details; overview]; Connectors := [] |}.

Definition Supplier : Element :=
  {| ElementID := 5; elem_Name := "Supplier"; elem_Type := "Class";
     Attributes := []; ClassifierID := 0; PackageID := 100;
     Diagrams := []; Connectors := [] |}.

Definition Status : Element :=
  {| ElementID := 9; elem_Name := "Status"; elem_Type := "Enumeration";
     Attributes := [{| AttributeID := 91; attr_Name := "open";
                       attr_Type := ""; attr_Default := "0" |}];
     ClassifierID := 0; PackageID := 100; Diagrams := [states];
     Connectors := [{| ClientID := 9; SupplierID := 1;
                       conn_Type := "Dependency"; conn_Name := "" |}] |}.

Definition package : Package :=
  {| pkg_Name := "Sales"; pkg_Diagrams := [overview; states] |}.

Definition repository : Repository :=
  {| Elements := {[1 := Customer; 2 := Order; 3 := Invoice; 5 := Supplier;
                   9 := Status]};
     Packages := {[100 := package]} |}.

Definition position_value : Position :=
  {| pos_left := Some 10; pos_right := Some 110;
     pos_top := Some (-20); pos_bottom := Some (-80) |}.

Definition position : option Position := Some position_value.

Definition customer_node : Node :=
  ElementNode 1 "Customer" "Class"
    [{| ar_id := 11; ar_name := "name"; ar_type := "String"; ar_default := "" |}]
    [] position.

Definition status_node : Node :=
  ExternalNode 9 "Status" "Enumeration" (Some "Sales")
    [{| ar_id := 91; ar_name := "open"; ar_type := ""; ar_default := "0" |}].

Definition invoice_node : Node :=
  ElementNode 3 "Invoice" "Class" [] [] position.

Definition order_node : Node :=
  ElementNode 2 "Order" "Class" []
    [MkDiagramNode "D8" "Details" "Diagram" [invoice_node]] position.

Definition package_node : Node :=
  PackageNode "Sales" "Package"
    [MkDiagramNode "D7" "Overview" "Diagram" [customer_node; order_node]].

Definition graph : Graph :=
  {| nodes := [customer_node; status_node; invoice_node; order_node;
               package_node];
     edges := [{| edge_from := 1; edge_to := 2; edge_type := "Association";
                  edge_name := "uses" |};
               {| edge_from := 2; edge_to := 5; edge_type := "Dependency";
                  edge_name := "needs" |}] |}.

(** The state on entry to the loop over the placements of [overview], and
    the state the loop leaves behind. *)
Definition overview_entered : GState :=
  mkState [] [] ∅ {[7]} ∅ ∅.

Definition overview_expanded : GState :=
  mkState [customer_node; status_node; invoice_node; order_node] (edges graph)
    {[1; 2; 3; 9]} {[7; 8]} {["1-2-Association"; "2-5-Dependency"]}
    {[1 := customer_node; 9 := status_node; 3 := invoice_node; 2 := order_node]}.

End Sample.

(** * A model with a dangling connector

    One element on the main diagram, with a connector whose supplier is not
    in the repository. *)
Module Dangling.

Definition Lonely : Element :=
  {| ElementID := 1; elem_Name := "Lonely"; elem_Type := "Class";
     Attributes := []; ClassifierID := 0; PackageID := 100; Diagrams := [];
     Connectors := [{| ClientID := 1; SupplierID := 99;
                       conn_Type := "Association"; conn_Name := "lost" |}] |}.

Definition package : Package :=
  {| pkg_Name := "P";
     pkg_Diagrams := [{| DiagramID := 7; diag_Name := "D";
                         DiagramObjects := [Sample.placement 1] |}] |}.

Definition repository : Repository :=
  {| Elements := {[1 := Lonely]}; Packages := ∅ |}.

End Dangling.

(** * Reasoning about runs *)

Lemma bind_Ok {SZ SS A B} (m : M SZ SS A) (f : A → M SZ SS B) st b st' :
  bind m f st = Ok (b, st') ↔ ∃ a st1, m st = Ok (a, st1) ∧ f a st1 = Ok (b, st').
Proof.
  unfold bind. split.
  - destruct (m st) as [[a st1]| |]; [eauto|done..].
  - intros (a & st1 & -> & ?); done.
Qed.

Lemma bind_not_out_of_fuel {SZ SS A B} (m : M SZ SS A) (f : A → M SZ SS B) st :
  m st ≠ OutOfFuel →
  (∀ a st1, m st = Ok (a, st1) → f a st1 ≠ OutOfFuel) →
  bind m f st ≠ OutOfFuel.
Proof.
  unfold bind. intros Hm Hf. destruct (m st) as [[a st1]| |]; [by apply Hf|done..].
Qed.

Lemma bool_decide_ext_orb (P Q R : Prop) `{!Decision P, !Decision Q, !Decision R} :
  (P ↔ Q ∨ R) → bool_decide P = bool_decide Q || bool_decide R.
Proof.
  intros HP. repeat case_bool_decide; simpl; tauto.
Qed.

(** Inversion of a successful run, one [bind] at a time. *)
Tactic Notation "inv_bind" hyp(H) "as" simple_intropattern(a)
    simple_intropattern(st) ident(H1) :=
  apply bind_Ok in H as (a & st & H1 & H).

(** The same for a step that only reads or writes the state. *)
Tactic Notation "inv_step" hyp(H) "as" simple_intropattern(st) :=
  let a := fresh "a" in
  let H1 := fresh "Hstep" in
  apply bind_Ok in H as (a & st & H1 & H);
  unfold append_node, append_edge, visit_element, visit_diagram, add_edge_id,
    record_processed, gets, modify, ret in H1;
  simplify_eq/=.

Ltac inv_prim H :=
  unfold append_node, append_edge, visit_element, visit_diagram, add_edge_id,
    record_processed, gets, modify, ret, raise, out_of_fuel in H;
  simplify_eq/=.

(** ** What a run adds to the state

    The sets are [gset]s in this part. *)

(** Every connector of [e] resolved at both ends and its key is recorded. *)
Definition connectors_emitted (repository : Repository) (es : gset string)
    (e : Element) : Prop :=
  ∀ c, c ∈ Connectors e →
    ∃ s t, GetElementByID repository (ClientID c) = Some s ∧
           GetElementByID repository (SupplierID c) = Some t ∧
           edgeID (ElementID s) (ElementID t) (conn_Type c) ∈ es.

(** The classifier of [e], when there is one and it resolves, is marked. *)
Definition classifier_visited (repository : Repository) (ve : gset Z)
    (e : Element) : Prop :=
  ClassifierID e ≠ 0 →
  ∀ c, GetElementByID repository (ClassifierID e) = Some c → ElementID c ∈ ve.

(** Where a node of [graph["nodes"]] comes from. *)
Definition node_origin (repository : Repository) (ve : gset Z)
    (es : gset string) (n : Node) : Prop :=
  match n with
  | ElementNode _ _ _ _ linkedDiagrams _ =>
      ∃ k e d, Elements repository !! k = Some e ∧
               n = element_node e d linkedDiagrams ∧
               connectors_emitted repository es e ∧
               classifier_visited repository ve e
  | ExternalNode _ _ _ _ _ =>
      ∃ k c, Elements repository !! k = Some c ∧ n = external_node repository c
  | PackageNode _ _ _ => True
  end.

Record delta := {
  d_nodes : list Node;
  d_edges : list Edge;
  d_diagrams : list Z
}.

(** [grows_by repository st st' pend δ]: between [st] and [st'] the nodes and
    edges of [δ] were appended, the diagrams [d_diagrams δ ++ pend] were
    marked, of which [pend] are not yet listed under a node of the graph. *)
Record grows_by (repository : Repository) (st st' : GState)
    (pend : list Z) (δ : delta) : Prop := {
  gb_nodes : graph_nodes st' = graph_nodes st ++ d_nodes δ;
  gb_edges : graph_edges st' = graph_edges st ++ d_edges δ;
  gb_visited :
    visited_elements st' = visited_elements st ∪ list_to_set (node_ids (d_nodes δ));
  gb_fresh : ∀ x, x ∈ node_ids (d_nodes δ) → x ∉ visited_elements st;
  gb_nodup : NoDup (node_ids (d_nodes δ));
  gb_vdiag :
    visited_diagrams st' = visited_diagrams st ∪ list_to_set (d_diagrams δ ++ pend);
  gb_listed : listed_diagrams (d_nodes δ) = diagram_key <$> d_diagrams δ;
  gb_dfresh : ∀ z, z ∈ d_diagrams δ ++ pend → z ∉ visited_diagrams st;
  gb_dnodup : NoDup (d_diagrams δ ++ pend);
  gb_eset : edge_set st' = edge_set st ∪ list_to_set (edge_key <$> d_edges δ);
  gb_efresh : ∀ k, k ∈ edge_key <$> d_edges δ → k ∉ edge_set st;
  gb_enodup : NoDup (edge_key <$> d_edges δ);
  gb_origin :
    Forall (node_origin repository (visited_elements st') (edge_set st')) (d_nodes δ)
}.

Definition grows (repository : Repository) (st st' : GState) (pend : list Z) : Prop :=
  ∃ δ, grows_by repository st st' pend δ.

Lemma node_ids_app ns1 ns2 : node_ids (ns1 ++ ns2) = node_ids ns1 ++ node_ids ns2.
Proof. apply omap_app. Qed.

Lemma listed_diagrams_app ns1 ns2 :
  listed_diagrams (ns1 ++ ns2) = listed_diagrams ns1 ++ listed_diagrams ns2.
Proof. apply bind_app. Qed.

Lemma connectors_emitted_mono repository es es' e :
  es ⊆ es' → connectors_emitted repository es e → connectors_emitted repository es' e.
Proof.
  intros Hsub He c Hc. destruct (He c Hc) as (s & t & ? & ? & ?).
  exists s, t. set_solver.
Qed.

Lemma classifier_visited_mono repository ve ve' e :
  ve ⊆ ve' → classifier_visited repository ve e → classifier_visited repository ve' e.
Proof. intros Hsub He Hne c Hc. specialize (He Hne c Hc). set_solver. Qed.

Lemma node_origin_mono repository ve ve' es es' n :
  ve ⊆ ve' → es ⊆ es' →
  node_origin repository ve es n → node_origin repository ve' es' n.
Proof.
  intros Hv He. destruct n; simpl; [|done..].
  intros (k & e & d & ? & ? & ? & ?). exists k, e, d.
  split_and!; eauto using connectors_emitted_mono, classifier_visited_mono.
Qed.

Lemma app_swap_middle {A} (a b c d : list A) :
  (a ++ b) ++ (c ++ d) ≡ₚ (a ++ c) ++ (b ++ d).
Proof.
  rewrite <-!(assoc_L (++)). f_equiv.
  rewrite !(assoc_L (++)). f_equiv. apply Permutation_app_comm.
Qed.

Lemma grows_refl repository st : grows repository st st [].
Proof.
  exists {| d_nodes := []; d_edges := []; d_diagrams := [] |}.
  split; simpl; try done; try apply NoDup_nil_2; try set_solver.
  - by rewrite app_nil_r.
  - by rewrite app_nil_r.
Qed.

Lemma grows_trans repository st st1 st2 p1 p2 :
  grows repository st st1 p1 → grows repository st1 st2 p2 →
  grows repository st st2 (p1 ++ p2).
Proof.
  intros [δ1 H1] [δ2 H2].
  exists {| d_nodes := d_nodes δ1 ++ d_nodes δ2;
            d_edges := d_edges δ1 ++ d_edges δ2;
            d_diagrams := d_diagrams δ1 ++ d_diagrams δ2 |}.
  destruct H1, H2. split; simpl.
  - rewrite gb_nodes1, gb_nodes0. by rewrite (assoc_L (++)).
  - rewrite gb_edges1, gb_edges0. by rewrite (assoc_L (++)).
  - rewrite gb_visited1, gb_visited0, node_ids_app. set_solver.
  - intros x. rewrite node_ids_app, elem_of_app. intros [Hx|Hx]; [by apply gb_fresh0|].
    apply gb_fresh1 in Hx. set_solver.
  - rewrite node_ids_app. apply NoDup_app. split_and!; [done| |done].
    intros x Hx Hx'. apply gb_fresh1 in Hx'. set_solver.
  - rewrite gb_vdiag1, gb_vdiag0. set_solver.
  - by rewrite listed_diagrams_app, gb_listed0, gb_listed1, fmap_app.
  - intros z. rewrite <-app_swap_middle, elem_of_app.
    intros [Hz|Hz]; [by apply gb_dfresh0|].
    apply gb_dfresh1 in Hz. set_solver.
  - rewrite <-app_swap_middle. apply NoDup_app. split_and!; [done| |done].
    intros z Hz Hz'. apply gb_dfresh1 in Hz'. set_solver.
  - rewrite gb_eset1, gb_eset0, fmap_app. set_solver.
  - intros k. rewrite fmap_app, elem_of_app. intros [Hk|Hk]; [by apply gb_efresh0|].
    apply gb_efresh1 in Hk. set_solver.
  - rewrite fmap_app. apply NoDup_app. split_and!; [done| |done].
    intros k Hk Hk'. apply gb_efresh1 in Hk'. set_solver.
  - apply Forall_app. split; [|done].
    eapply Forall_impl; [done|]. intros n. apply node_origin_mono; set_solver.
Qed.

Lemma grows_trans_l repository st st1 st2 p :
  grows repository st st1 [] → grows repository st1 st2 p →
  grows repository st st2 p.
Proof. apply (grows_trans _ _ _ _ []). Qed.

Lemma grows_trans_r repository st st1 st2 p :
  grows repository st st1 p → grows repository st1 st2 [] →
  grows repository st st2 p.
Proof. intros H1 H2. rewrite <-(app_nil_r p). by eapply grows_trans. Qed.

Lemma grows_visited repository st st' p :
  grows repository st st' p → visited_elements st ⊆ visited_elements st'.
Proof. intros [δ Hδ]. rewrite (gb_visited _ _ _ _ _ Hδ). set_solver. Qed.

Lemma grows_edge_set repository st st' p :
  grows repository st st' p → edge_set st ⊆ edge_set st'.
Proof. intros [δ Hδ]. rewrite (gb_eset _ _ _ _ _ Hδ). set_solver. Qed.

(** ** The closures one by one *)

Section growth.
Variable repository : Repository.
Implicit Types st : GState.

Lemma process_external_classifier_grows classifierID st u st' :
  process_external_classifier repository classifierID st = Ok (u, st') →
  grows repository st st' [] ∧
  ∀ c, GetElementByID repository classifierID = Some c →
       ElementID c ∈ visited_elements st'.
Proof.
  unfold process_external_classifier. intros Hrun.
  destruct (GetElementByID repository classifierID) as [c|] eqn:Hc.
  - inv_step Hrun as ?. case_bool_decide as Hv; simpl in Hrun.
    + inv_prim Hrun. split; [apply grows_refl|]. by intros ? [= <-].
    + inv_step Hrun as ?. inv_step Hrun as ?. inv_prim Hrun.
      split; [|intros ? [= <-]; set_solver].
      exists {| d_nodes := [external_node repository c]; d_edges := [];
                d_diagrams := [] |}.
      split; simpl; try done; try apply NoDup_nil_2; try set_solver.
      * by rewrite app_nil_r.
      * apply NoDup_singleton.
      * constructor; [|done]. unfold GetElementByID in Hc. by exists classifierID, c.
  - inv_prim Hrun. split; [apply grows_refl|done].
Qed.

Lemma add_edge_from_connector_grows connector st u st' :
  add_edge_from_connector repository connector st = Ok (u, st') →
  grows repository st st' [] ∧
  ∃ s t, GetElementByID repository (ClientID connector) = Some s ∧
         GetElementByID repository (SupplierID connector) = Some t ∧
         edgeID (ElementID s) (ElementID t) (conn_Type connector) ∈ edge_set st'.
Proof.
  unfold add_edge_from_connector. intros Hrun.
  destruct (GetElementByID repository (ClientID connector)) as [s|]; [|done].
  destruct (GetElementByID repository (SupplierID connector)) as [t|]; [|done].
  inv_step Hrun as ?. case_bool_decide as Hk; simpl in Hrun.
  - inv_prim Hrun. split; [apply grows_refl|]. by exists s, t.
  - inv_step Hrun as ?. inv_prim Hrun.
    split; [|exists s, t; set_solver].
    exists {| d_nodes := [];
              d_edges := [{| edge_from := ElementID s; edge_to := ElementID t;
                             edge_type := conn_Type connector;
                             edge_name := conn_Name connector |}];
              d_diagrams := [] |}.
    split; simpl; try done; try apply NoDup_nil_2; try set_solver.
    + by rewrite app_nil_r.
    + apply NoDup_singleton.
Qed.

Lemma add_edges_from_connectors_grows connectors st u st' :
  add_edges_from_connectors repository connectors st = Ok (u, st') →
  grows repository st st' [] ∧
  ∀ c, c ∈ connectors →
    ∃ s t, GetElementByID repository (ClientID c) = Some s ∧
           GetElementByID repository (SupplierID c) = Some t ∧
           edgeID (ElementID s) (ElementID t) (conn_Type c) ∈ edge_set st'.
Proof.
  revert st. induction connectors as [|c cs IH]; intros st Hrun; simpl in Hrun.
  - inv_prim Hrun. split; [apply grows_refl|]. by intros ? ?%elem_of_nil.
  - inv_bind Hrun as [] st0 Hrun0.
    apply add_edge_from_connector_grows in Hrun0 as [Hg0 (s & t & Hs & Ht & Hk)].
    apply IH in Hrun as [Hg Hcs].
    split; [by eapply grows_trans_l|].
    intros c' [->|Hc']%elem_of_cons; [|by apply Hcs].
    exists s, t. split_and!; [done..|].
    by apply (grows_edge_set _ _ _ _ Hg).
Qed.

(** The two loops over diagram objects are the same function. *)
Lemma linked_diagram_elements_eq {SZ SS} `{!PySet Z SZ}
    (pe : Element → option DiagramObject → M SZ SS (option Node)) objects
    (st : State SZ SS) :
  linked_diagram_elements repository pe objects st
  = main_diagram_elements repository pe objects st.
Proof.
  revert st. induction objects as [|o os IH]; intros st; simpl; [done|].
  unfold bind, gets.
  destruct (GetElementByID repository (do_ElementID o)) as [e|]; [|done].
  destruct (negb _); [|done].
  destruct (pe e (Some o) st) as [[[n|] st1]| |]; [|done..].
  by rewrite IH.
Qed.

(** What the loops assume of the recursive call. *)
Definition process_element_grows
    (pe : Element → option DiagramObject → M (gset Z) (gset string) (option Node))
    : Prop :=
  ∀ k e d st r st',
    Elements repository !! k = Some e →
    ElementID e ∉ visited_elements st →
    pe e d st = Ok (r, st') →
    grows repository st st' [] ∧
    ElementID e ∈ visited_elements st' ∧
    ∃ linkedDiagrams, r = Some (element_node e d linkedDiagrams).

Section loops.
Variable pe : Element → option DiagramObject → M (gset Z) (gset string) (option Node).
Hypothesis pe_grows : process_element_grows pe.

Lemma main_diagram_elements_grows objects st ns st' :
  main_diagram_elements repository pe objects st = Ok (ns, st') →
  grows repository st st' [] ∧
  ∀ o e, o ∈ objects → GetElementByID repository (do_ElementID o) = Some e →
         ElementID e ∈ visited_elements st'.
Proof.
  revert st ns. induction objects as [|o os IH]; intros st ns Hrun; simpl in Hrun.
  - inv_prim Hrun. split; [apply grows_refl|]. by intros ? ? ?%elem_of_nil.
  - destruct (GetElementByID repository (do_ElementID o)) as [e|] eqn:He.
    + inv_step Hrun as ?. case_bool_decide as Hv; simpl in Hrun.
      * apply IH in Hrun as [Hg Hvis]. split; [done|].
        intros o' e' [->|Ho']%elem_of_cons He'; [|by eapply Hvis].
        rewrite He in He'. injection He' as <-.
        by apply (grows_visited _ _ _ _ Hg).
      * inv_bind Hrun as r st1 Hrun0. unfold GetElementByID in He.
        destruct (pe_grows _ _ _ _ _ _ He Hv Hrun0) as (Hg0 & Hin & ld & ->).
        inv_bind Hrun as ns' st2 Hrun1. inv_prim Hrun.
        apply IH in Hrun1 as [Hg Hvis].
        split; [by eapply grows_trans_l|].
        intros o' e' [->|Ho']%elem_of_cons He'; [|by eapply Hvis].
        unfold GetElementByID in He'. rewrite He in He'. injection He' as <-.
        by apply (grows_visited _ _ _ _ Hg).
    + apply IH in Hrun as [Hg Hvis]. split; [done|].
      intros o' e' [->|Ho']%elem_of_cons He'; [congruence|by eapply Hvis].
Qed.

Lemma grows_diagram st st1 st2 z :
  z ∉ visited_diagrams st →
  visit_diagram z st = Ok (tt, st1) →
  grows repository st1 st2 [] →
  grows repository st st2 [z].
Proof.
  intros Hz Hvisit [δ Hδ]. inv_prim Hvisit. exists δ.
  destruct Hδ. rewrite app_nil_r in *. simpl in *. split; try done.
  - rewrite gb_vdiag0, list_to_set_app_L. set_solver.
  - intros z'. rewrite elem_of_app, list_elem_of_singleton.
    intros [Hz'| ->]; [|done]. apply gb_dfresh0 in Hz'. set_solver.
  - apply NoDup_app. split_and!; [done| |apply NoDup_singleton].
    intros z' Hz' ->%list_elem_of_singleton. apply gb_dfresh0 in Hz'. set_solver.
Qed.

Lemma process_linked_diagrams_of_grows diagrams st lds st' :
  process_linked_diagrams_of repository pe diagrams st = Ok (lds, st') →
  ∃ pend, grows repository st st' pend ∧
          diagram_node_id <$> lds = diagram_key <$> pend.
Proof.
  revert st lds. induction diagrams as [|d ds IH]; intros st lds Hrun; simpl in Hrun.
  - inv_prim Hrun. exists []. split; [apply grows_refl|done].
  - inv_step Hrun as ?. case_bool_decide as Hv.
    + by apply IH.
    + inv_bind Hrun as [] st1 Hrun0. inv_bind Hrun as ns st2 Hrun1.
      rewrite linked_diagram_elements_eq in Hrun1.
      apply main_diagram_elements_grows in Hrun1 as [Hg1 _].
      inv_bind Hrun as lds' st3 Hrun2. inv_prim Hrun.
      apply IH in Hrun2 as (pend & Hg2 & Hids).
      exists (DiagramID d :: pend). split; [|by simpl; rewrite Hids].
      apply (grows_trans _ _ st2 _ [DiagramID d] pend); [|done].
      by eapply grows_diagram.
Qed.

End loops.

Lemma grows_element st st1 st2 pend node :
  ∀ k e d linkedDiagrams,
  Elements repository !! k = Some e →
  ElementID e ∉ visited_elements st →
  visit_element (ElementID e) st = Ok (tt, st1) →
  grows repository st1 st2 pend →
  diagram_node_id <$> linkedDiagrams = diagram_key <$> pend →
  node = element_node e d linkedDiagrams →
  connectors_emitted repository (edge_set st2) e →
  classifier_visited repository (visited_elements st2) e →
  grows repository st
    (mkState (graph_nodes st2 ++ [node]) (graph_edges st2)
       (visited_elements st2) (visited_diagrams st2) (edge_set st2)
       (<[ElementID e := node]> (processed_elements st2))) [].
Proof.
  intros k e d ld He Hv Hvisit [δ Hδ] Hld -> Hconn Hcls. inv_prim Hvisit.
  exists {| d_nodes := d_nodes δ ++ [element_node e d ld];
            d_edges := d_edges δ;
            d_diagrams := d_diagrams δ ++ pend |}.
  destruct Hδ. simpl in *. split; simpl; try done.
  - by rewrite gb_nodes0, (assoc_L (++)).
  - rewrite gb_visited0, node_ids_app. set_solver.
  - intros x. rewrite node_ids_app, elem_of_app. simpl.
    rewrite list_elem_of_singleton.
    intros [Hx| ->]; [|done]. apply gb_fresh0 in Hx. set_solver.
  - rewrite node_ids_app. apply NoDup_app. split_and!; [done| |apply NoDup_singleton].
    simpl. intros x Hx ->%list_elem_of_singleton. apply gb_fresh0 in Hx. set_solver.
  - by rewrite app_nil_r.
  - rewrite listed_diagrams_app, gb_listed0, fmap_app. f_equal.
    unfold listed_diagrams. simpl. by rewrite app_nil_r.
  - by rewrite app_nil_r.
  - by rewrite app_nil_r.
  - apply Forall_app. split; [done|]. constructor; [|done].
    simpl. by exists k, e, d.
Qed.

Lemma process_element_grows_fuel fuel :
  process_element_grows (process_element repository fuel).
Proof.
  induction fuel as [|fuel IH]; intros k e d st r st' He Hv Hrun; simpl in Hrun;
    [done|].
  inv_step Hrun as ?. rewrite bool_decide_eq_false_2 in Hrun by done.
  inv_bind Hrun as [] st1 Hvisit.
  inv_bind Hrun as [] st2 Hcls.
  inv_bind Hrun as lds st3 Hlinked.
  inv_bind Hrun as [] st4 Hedges.
  inv_step Hrun as ?. inv_step Hrun as ?. inv_prim Hrun.
  assert (grows repository st1 st2 [] ∧ classifier_visited repository
            (visited_elements st2) e) as [Hg2 Hcv].
  { unfold classifier_visited. case_bool_decide as Hne.
    - apply process_external_classifier_grows in Hcls as [? ?]. by split.
    - inv_prim Hcls. split; [apply grows_refl|done]. }
  apply (process_linked_diagrams_of_grows _ IH) in Hlinked as (pend & Hg3 & Hids).
  apply add_edges_from_connectors_grows in Hedges as [Hg4 Hconn].
  assert (grows repository st1 st4 pend) as Hg.
  { eapply grows_trans_l; [done|]. by eapply grows_trans_r. }
  split_and!.
  - eapply grows_element; try done.
    eapply classifier_visited_mono; [|done].
    etrans; by eapply grows_visited.
  - simpl. apply (grows_visited _ _ _ _ Hg). inv_prim Hvisit. set_solver.
  - by eexists.
Qed.

Lemma process_main_diagram_grows fuel package st u st' :
  (∀ d ds, pkg_Diagrams package = d :: ds → DiagramID d ∉ visited_diagrams st) →
  process_main_diagram repository (process_element repository fuel) package st
    = Ok (u, st') →
  grows repository st st' [].
Proof.
  unfold process_main_diagram. intros Hfresh Hrun.
  destruct (pkg_Diagrams package) as [|mainDiagram ds]; [inv_prim Hrun; apply grows_refl|].
  specialize (Hfresh _ _ eq_refl).
  inv_step Hrun as ?. inv_bind Hrun as elements st2 Hrun1.
  apply (main_diagram_elements_grows _ (process_element_grows_fuel fuel))
    in Hrun1 as [[δ Hδ] _].
  inv_prim Hrun.
  set (pkg := PackageNode _ _ _).
  exists {| d_nodes := d_nodes δ ++ [pkg];
            d_edges := d_edges δ;
            d_diagrams := d_diagrams δ ++ [DiagramID mainDiagram] |}.
  destruct Hδ. rewrite app_nil_r in *. simpl in *.
  assert (node_ids (d_nodes δ ++ [pkg]) = node_ids (d_nodes δ)) as Hids.
  { rewrite node_ids_app. simpl. by rewrite app_nil_r. }
  split; simpl; rewrite ?Hids, ?app_nil_r; try done.
  - by rewrite gb_nodes0, (assoc_L (++)).
  - rewrite gb_vdiag0, list_to_set_app_L. set_solver.
  - rewrite listed_diagrams_app, gb_listed0, fmap_app. done.
  - intros z. rewrite elem_of_app, list_elem_of_singleton.
    intros [Hz| ->]; [|done]. apply gb_dfresh0 in Hz. set_solver.
  - apply NoDup_app. split_and!; [done| |apply NoDup_singleton].
    intros z Hz ->%list_elem_of_singleton. apply gb_dfresh0 in Hz. set_solver.
  - apply Forall_app. split; [done|]. by constructor.
Qed.

End growth.

(** ** The traversal terminates

    The identifiers carried by the elements of the repository that are not
    yet marked bound the depth of the recursion. *)

Definition repository_ids (repository : Repository) : gset Z :=
  list_to_set ((ElementID ∘ snd) <$> map_to_list (Elements repository)).

Definition unvisited (repository : Repository) (st : GState) : nat :=
  size (repository_ids repository ∖ visited_elements st).

Lemma size_list_to_set_le (l : list Z) :
  (size (list_to_set l : gset Z) ≤ length l)%nat.
Proof.
  induction l as [|x l IH]; [by rewrite list_to_set_nil, size_empty|].
  rewrite list_to_set_cons, size_union_alt, size_singleton. simpl.
  apply le_n_S. etrans; [apply subseteq_size|exact IH]. set_solver.
Qed.

Lemma repository_ids_size repository :
  (size (repository_ids repository) ≤ size (Elements repository))%nat.
Proof.
  unfold repository_ids. etrans; [apply size_list_to_set_le|].
  by rewrite length_fmap, length_map_to_list.
Qed.

Lemma elem_of_repository_ids repository k e :
  Elements repository !! k = Some e → ElementID e ∈ repository_ids repository.
Proof.
  intros He. unfold repository_ids. apply elem_of_list_to_set, list_elem_of_fmap.
  exists (k, e). split; [done|]. by apply elem_of_map_to_list.
Qed.

Lemma unvisited_mono repository (st st' : GState) :
  visited_elements st ⊆ visited_elements st' →
  (unvisited repository st' ≤ unvisited repository st)%nat.
Proof. intros Hsub. apply subseteq_size. set_solver. Qed.

Lemma unvisited_visit repository (st : GState) k e :
  Elements repository !! k = Some e →
  ElementID e ∉ visited_elements st →
  (size (repository_ids repository ∖ ({[ElementID e]} ∪ visited_elements st))
   < unvisited repository st)%nat.
Proof.
  intros He Hv. apply subset_size.
  pose proof (elem_of_repository_ids _ _ _ He). set_solver.
Qed.

Section termination.
Variable repository : Repository.
Implicit Types st : GState.

Lemma process_external_classifier_returns classifierID st :
  ∃ st', process_external_classifier repository classifierID st = Ok (tt, st').
Proof.
  unfold process_external_classifier.
  destruct (GetElementByID repository classifierID) as [c|]; [|by eexists].
  unfold bind, gets; simpl. case_bool_decide; by eexists.
Qed.

Lemma add_edges_from_connectors_fuel connectors st :
  add_edges_from_connectors repository connectors st ≠ OutOfFuel.
Proof.
  revert st. induction connectors as [|c cs IH]; intros st; simpl; [done|].
  apply bind_not_out_of_fuel; [|by intros; apply IH].
  unfold add_edge_from_connector.
  destruct (GetElementByID repository (ClientID c)); [|done].
  destruct (GetElementByID repository (SupplierID c)); [|done].
  unfold bind, gets; simpl. by case_bool_decide.
Qed.

(** What the loops assume of the recursive call with [fuel] left. *)
Definition process_element_returns (fuel : nat)
    (pe : Element → option DiagramObject → M (gset Z) (gset string) (option Node))
    : Prop :=
  ∀ k e d st,
    Elements repository !! k = Some e →
    (unvisited repository st < fuel)%nat →
    pe e d st ≠ OutOfFuel.

Section loops.
Variable fuel : nat.
Variable pe : Element → option DiagramObject → M (gset Z) (gset string) (option Node).
Hypothesis pe_grows : process_element_grows repository pe.
Hypothesis pe_returns : process_element_returns fuel pe.

Lemma main_diagram_elements_fuel objects st :
  (unvisited repository st < fuel)%nat →
  main_diagram_elements repository pe objects st ≠ OutOfFuel.
Proof.
  revert st. induction objects as [|o os IH]; intros st Hfuel; simpl; [done|].
  destruct (GetElementByID repository (do_ElementID o)) as [e|] eqn:He; [|by apply IH].
  apply bind_not_out_of_fuel; [done|]. intros visited ? [= <- <-].
  simpl. case_bool_decide as Hv; simpl; [by apply IH|].
  apply bind_not_out_of_fuel; [by eapply pe_returns|].
  intros r st1 Hrun.
  destruct (pe_grows _ _ _ _ _ _ He Hv Hrun) as (Hg & _ & ld & ->).
  assert (unvisited repository st1 < fuel)%nat.
  { pose proof (unvisited_mono repository _ _ (grows_visited _ _ _ _ Hg)). lia. }
  apply bind_not_out_of_fuel; [by apply IH|done].
Qed.

Lemma process_linked_diagrams_of_fuel diagrams st :
  (unvisited repository st < fuel)%nat →
  process_linked_diagrams_of repository pe diagrams st ≠ OutOfFuel.
Proof.
  revert st. induction diagrams as [|d ds IH]; intros st Hfuel; simpl; [done|].
  apply bind_not_out_of_fuel; [done|]. intros visited ? [= <- <-].
  simpl. case_bool_decide as Hv; [by apply IH|].
  apply bind_not_out_of_fuel; [done|]. intros [] st1 Hvisit. inv_prim Hvisit.
  apply bind_not_out_of_fuel.
  { rewrite linked_diagram_elements_eq. apply main_diagram_elements_fuel.
    exact Hfuel. }
  intros ns st2 Hrun. rewrite linked_diagram_elements_eq in Hrun.
  apply (main_diagram_elements_grows _ _ pe_grows) in Hrun as [Hg _].
  apply bind_not_out_of_fuel; [|done]. apply IH.
  pose proof (unvisited_mono repository _ _ (grows_visited _ _ _ _ Hg)).
  unfold unvisited in *. simpl in *. lia.
Qed.

End loops.

Lemma process_element_fuel fuel :
  process_element_returns fuel (process_element repository fuel).
Proof.
  induction fuel as [|fuel IH]; intros k e d st He Hfuel; [lia|]. simpl.
  apply bind_not_out_of_fuel; [done|]. intros visited ? [= <- <-].
  simpl. case_bool_decide as Hv; [done|].
  apply bind_not_out_of_fuel; [done|]. intros [] st1 Hvisit. inv_prim Hvisit.
  pose proof (unvisited_visit _ _ _ _ He Hv) as Hless.
  set (st1 := mkState _ _ _ _ _ _) in *.
  assert (∀ st2, (if bool_decide (ClassifierID e ≠ 0)
                  then process_external_classifier repository (ClassifierID e)
                  else ret ()) st1 = Ok ((), st2) →
                 (unvisited repository st2 < fuel)%nat) as Hcls.
  { intros st2 Hrun.
    assert (grows repository st1 st2 []) as Hg.
    { case_bool_decide.
      - by apply process_external_classifier_grows in Hrun as [? _].
      - inv_prim Hrun. apply grows_refl. }
    pose proof (unvisited_mono repository _ _ (grows_visited _ _ _ _ Hg)).
    unfold unvisited in *. simpl in *. lia. }
  apply bind_not_out_of_fuel.
  { case_bool_decide; [|done].
    by destruct (process_external_classifier_returns (ClassifierID e) st1) as [? ->]. }
  intros [] st2 Hrun. apply Hcls in Hrun.
  apply bind_not_out_of_fuel.
  { apply (process_linked_diagrams_of_fuel fuel);
      auto using process_element_grows_fuel. }
  intros lds st3 _.
  apply bind_not_out_of_fuel; [apply add_edges_from_connectors_fuel|done].
Qed.

(** The counter chosen by [generate_graph_from_package] is enough. *)
Lemma process_main_diagram_fuel package :
  process_main_diagram repository
    (process_element repository (traversal_fuel repository)) package
    (initial_state : GState) ≠ OutOfFuel.
Proof.
  assert (size (repository_ids repository) < traversal_fuel repository)%nat
    as Hfuel by apply Nat.lt_succ_r, repository_ids_size.
  generalize dependent (traversal_fuel repository). intros fuel Hfuel.
  unfold process_main_diagram.
  destruct (pkg_Diagrams package) as [|mainDiagram ds]; [done|].
  apply bind_not_out_of_fuel; [done|]. intros [] st1 Hvisit. inv_prim Hvisit.
  apply bind_not_out_of_fuel; [|done].
  apply (main_diagram_elements_fuel fuel);
    auto using process_element_grows_fuel, process_element_fuel.
  unfold unvisited. simpl.
  eapply Nat.le_lt_trans; [apply subseteq_size|exact Hfuel].
  set_solver.
Qed.

End termination.

Lemma process_element_S {SZ SS} `{!PySet Z SZ, !PySet string SS} repository
    fuel element diag_object :
  process_element (SZ:=SZ) (SS:=SS) repository (S fuel) element diag_object
  = (visited <- gets visited_elements;;
     if set_in (ElementID element) visited then
       gets (λ st, processed_elements st !! ElementID element)
     else
       visit_element (ElementID element);;
       (if bool_decide (ClassifierID element ≠ 0)
        then process_external_classifier repository (ClassifierID element)
        else ret tt);;
       linkedDiagrams <- process_linked_diagrams repository
                           (process_element repository fuel) element;;
       add_edges_from_element repository element;;
       let node := element_node element diag_object linkedDiagrams in
       append_node node;;
       record_processed (ElementID element) node;;
       ret (Some node)).
Proof. reflexivity. Qed.

(** ** More fuel changes nothing

    A run that does not run out of fuel is the run of the unbounded
    recursion: with any larger counter it gives the same result. *)

Section fuel.
Context {SZ SS : Type} `{!PySet Z SZ, !PySet string SS}.
Variable repository : Repository.

Definition refines {A} (m1 m2 : M SZ SS A) : Prop :=
  ∀ st, m1 st ≠ OutOfFuel → m2 st = m1 st.

Lemma refines_refl {A} (m : M SZ SS A) : refines m m.
Proof. by intros st _. Qed.

Lemma refines_bind {A B} (m1 m2 : M SZ SS A) (f1 f2 : A → M SZ SS B) :
  refines m1 m2 → (∀ a, refines (f1 a) (f2 a)) →
  refines (bind m1 f1) (bind m2 f2).
Proof.
  intros Hm Hf st. unfold bind. specialize (Hm st).
  destruct (m1 st) as [[a st1]| |] eqn:H1; intros Hne; [|by rewrite Hm..].
  rewrite Hm by done. by apply Hf.
Qed.

Section loops.
Variables pe1 pe2 : Element → option DiagramObject → M SZ SS (option Node).
Hypothesis pe_refines : ∀ e d, refines (pe1 e d) (pe2 e d).

Lemma main_diagram_elements_refines objects :
  refines (main_diagram_elements repository pe1 objects)
          (main_diagram_elements repository pe2 objects).
Proof.
  induction objects as [|o os IH]; simpl; [apply refines_refl|].
  destruct (GetElementByID repository (do_ElementID o)) as [e|]; [|done].
  apply refines_bind; [apply refines_refl|]. intros visited.
  destruct (negb _); [|done].
  apply refines_bind; [apply pe_refines|]. intros [n|]; [|done].
  apply refines_bind; [done|]. intros ns. apply refines_refl.
Qed.

Lemma process_linked_diagrams_of_refines diagrams :
  refines (process_linked_diagrams_of repository pe1 diagrams)
          (process_linked_diagrams_of repository pe2 diagrams).
Proof.
  induction diagrams as [|d ds IH]; simpl; [apply refines_refl|].
  apply refines_bind; [apply refines_refl|]. intros visited.
  destruct (set_in _ _); [done|].
  apply refines_bind; [apply refines_refl|]. intros _.
  apply refines_bind.
  { intros st. rewrite !linked_diagram_elements_eq.
    apply main_diagram_elements_refines. }
  intros ns. apply refines_bind; [done|]. intros lds. apply refines_refl.
Qed.

End loops.

Lemma process_element_refines_S fuel e d :
  refines (process_element repository fuel e d)
          (process_element repository (S fuel) e d).
Proof.
  revert e d. induction fuel as [|fuel IH]; intros e d; [by intros st []|].
  rewrite (process_element_S _ fuel), (process_element_S _ (S fuel)).
  apply refines_bind; [apply refines_refl|]. intros visited.
  destruct (set_in _ _); [apply refines_refl|].
  apply refines_bind; [apply refines_refl|]. intros _.
  apply refines_bind; [apply refines_refl|]. intros _.
  apply refines_bind; [by apply process_linked_diagrams_of_refines|].
  intros lds. apply refines_refl.
Qed.

Lemma process_element_refines fuel fuel' e d :
  (fuel ≤ fuel')%nat →
  refines (process_element repository fuel e d)
          (process_element repository fuel' e d).
Proof.
  induction 1 as [|fuel' _ IH]; [apply refines_refl|].
  intros st Hne. rewrite <-(IH st Hne).
  apply process_element_refines_S. by rewrite (IH st Hne).
Qed.

Lemma run_traversal_more_fuel fuel fuel' ea_pkg :
  (fuel ≤ fuel')%nat →
  run_traversal (SZ:=SZ) (SS:=SS) repository fuel ea_pkg ≠ OutOfFuel →
  run_traversal (SZ:=SZ) (SS:=SS) repository fuel' ea_pkg
  = run_traversal (SZ:=SZ) (SS:=SS) repository fuel ea_pkg.
Proof.
  intros Hle. unfold run_traversal, process_main_diagram.
  destruct (pkg_Diagrams ea_pkg) as [|mainDiagram ds]; [done|].
  intros Hne.
  assert (refines
    (visit_diagram (DiagramID mainDiagram);;
     elements <- main_diagram_elements repository
                   (process_element repository fuel) (DiagramObjects mainDiagram);;
     append_node (PackageNode (pkg_Name ea_pkg) "Package"
       [MkDiagramNode (diagram_key (DiagramID mainDiagram))
          (diag_Name mainDiagram) "Diagram" elements]))
    (visit_diagram (DiagramID mainDiagram);;
     elements <- main_diagram_elements repository
                   (process_element repository fuel') (DiagramObjects mainDiagram);;
     append_node (PackageNode (pkg_Name ea_pkg) "Package"
       [MkDiagramNode (diagram_key (DiagramID mainDiagram))
          (diag_Name mainDiagram) "Diagram" elements]))) as Href.
  { apply refines_bind; [apply refines_refl|]. intros _.
    apply refines_bind; [|intros; apply refines_refl].
    apply main_diagram_elements_refines. intros e d.
    by apply process_element_refines. }
  rewrite Href; [done|]. intros Hout. by rewrite Hout in Hne.
Qed.

End fuel.

(** ** The result does not depend on how the sets are represented

    Two runs over sets with the same members stay in step: they append the
    same nodes and edges, in the same order, and end alike. *)

Section simulation.
Context {SZ1 SS1 SZ2 SS2 : Type}.
Context `{!PySet Z SZ1, !PySet string SS1, !PySet Z SZ2, !PySet string SS2}.
Context `{!PySetLaws Z SZ1, !PySetLaws string SS1}.
Context `{!PySetLaws Z SZ2, !PySetLaws string SS2}.
Variable repository : Repository.

Definition same_members {K S1 S2} `{!PySet K S1, !PySet K S2}
    (s1 : S1) (s2 : S2) : Prop :=
  ∀ k : K, set_in k s1 = set_in k s2.

Record sim (st1 : State SZ1 SS1) (st2 : State SZ2 SS2) : Prop := {
  sim_nodes : graph_nodes st1 = graph_nodes st2;
  sim_edges : graph_edges st1 = graph_edges st2;
  sim_visited : same_members (visited_elements st1) (visited_elements st2);
  sim_vdiag : same_members (visited_diagrams st1) (visited_diagrams st2);
  sim_eset : same_members (edge_set st1) (edge_set st2);
  sim_processed : processed_elements st1 = processed_elements st2
}.

Definition sim_result {A1 A2} (R : A1 → A2 → Prop)
    (r1 : result (A1 * State SZ1 SS1)) (r2 : result (A2 * State SZ2 SS2)) : Prop :=
  match r1, r2 with
  | Ok (a1, st1), Ok (a2, st2) => R a1 a2 ∧ sim st1 st2
  | Raise e1, Raise e2 => e1 = e2
  | OutOfFuel, OutOfFuel => True
  | _, _ => False
  end.

Definition sim_M {A1 A2} (R : A1 → A2 → Prop)
    (m1 : M SZ1 SS1 A1) (m2 : M SZ2 SS2 A2) : Prop :=
  ∀ st1 st2, sim st1 st2 → sim_result R (m1 st1) (m2 st2).

Lemma same_members_add {K S1 S2} `{EqDecision K} `{!PySet K S1, !PySet K S2}
    `{!PySetLaws K S1, !PySetLaws K S2} (s1 : S1) (s2 : S2) (x : K) :
  same_members s1 s2 → same_members (set_add x s1) (set_add x s2).
Proof. intros Hs k. by rewrite !set_in_add, Hs. Qed.

Lemma sim_ret {A} (a : A) : sim_M (=) (ret a) (ret a).
Proof. by intros st1 st2 Hst. Qed.

Lemma sim_bind {A1 A2 B1 B2} (R : A1 → A2 → Prop) (Q : B1 → B2 → Prop)
    m1 m2 f1 f2 :
  sim_M R m1 m2 →
  (∀ a1 a2, R a1 a2 → sim_M Q (f1 a1) (f2 a2)) →
  sim_M Q (bind m1 f1) (bind m2 f2).
Proof.
  intros Hm Hf st1 st2 Hst. specialize (Hm st1 st2 Hst). unfold bind, sim_result in *.
  destruct (m1 st1) as [[a1 st1']| |], (m2 st2) as [[a2 st2']| |]; try done.
  destruct Hm as [Ha Hst']. by apply Hf.
Qed.

Lemma sim_gets {A1 A2} (R : A1 → A2 → Prop) f1 f2 :
  (∀ st1 st2, sim st1 st2 → R (f1 st1) (f2 st2)) →
  sim_M R (gets f1) (gets f2).
Proof. intros Hf st1 st2 Hst. split; [by apply Hf|done]. Qed.

Lemma sim_modify f1 f2 :
  (∀ st1 st2, sim st1 st2 → sim (f1 st1) (f2 st2)) →
  sim_M (=) (modify f1) (modify f2).
Proof. intros Hf st1 st2 Hst. split; [done|by apply Hf]. Qed.

Lemma sim_append_node n : sim_M (=) (append_node n) (append_node n).
Proof.
  apply sim_modify. intros st1 st2 []. split; simpl; try done. by f_equal.
Qed.

Lemma sim_append_edge e : sim_M (=) (append_edge e) (append_edge e).
Proof.
  apply sim_modify. intros st1 st2 []. split; simpl; try done. by f_equal.
Qed.

Lemma sim_visit_element i : sim_M (=) (visit_element i) (visit_element i).
Proof.
  apply sim_modify. intros st1 st2 []. split; simpl; try done.
  by apply same_members_add.
Qed.

Lemma sim_visit_diagram i : sim_M (=) (visit_diagram i) (visit_diagram i).
Proof.
  apply sim_modify. intros st1 st2 []. split; simpl; try done.
  by apply same_members_add.
Qed.

Lemma sim_add_edge_id k : sim_M (=) (add_edge_id k) (add_edge_id k).
Proof.
  apply sim_modify. intros st1 st2 []. split; simpl; try done.
  by apply same_members_add.
Qed.

Lemma sim_record_processed i n :
  sim_M (=) (record_processed i n) (record_processed i n).
Proof.
  apply sim_modify. intros st1 st2 []. split; simpl; try done. by f_equal.
Qed.

Create HintDb sim.
Local Hint Resolve sim_ret sim_append_node sim_append_edge sim_visit_element
  sim_visit_diagram sim_add_edge_id sim_record_processed : sim.

Lemma sim_process_external_classifier classifierID :
  sim_M (=) (process_external_classifier repository classifierID)
            (process_external_classifier repository classifierID).
Proof.
  unfold process_external_classifier.
  destruct (GetElementByID repository classifierID) as [c|]; [|apply sim_ret].
  eapply sim_bind; [apply sim_gets, sim_visited|].
  intros v1 v2 Hv. rewrite (Hv (ElementID c)). destruct (negb _); [|apply sim_ret].
  repeat (eapply sim_bind; [by auto with sim|intros ? ? _]). auto with sim.
Qed.

Lemma sim_add_edges_from_connectors connectors :
  sim_M (=) (add_edges_from_connectors repository connectors)
            (add_edges_from_connectors repository connectors).
Proof.
  induction connectors as [|c cs IH]; simpl; [apply sim_ret|].
  eapply sim_bind; [|by intros]. unfold add_edge_from_connector.
  destruct (GetElementByID repository (ClientID c)) as [s|]; [|by intros ? ? ?].
  destruct (GetElementByID repository (SupplierID c)) as [t|]; [|by intros ? ? ?].
  eapply sim_bind; [apply sim_gets, sim_eset|].
  intros v1 v2 Hv. rewrite (Hv (edgeID _ _ _)). destruct (negb _); [|apply sim_ret].
  eapply sim_bind; [by auto with sim|intros ? ? _]. auto with sim.
Qed.

Section loops.
Variable pe1 : Element → option DiagramObject → M SZ1 SS1 (option Node).
Variable pe2 : Element → option DiagramObject → M SZ2 SS2 (option Node).
Hypothesis sim_pe : ∀ e d, sim_M (=) (pe1 e d) (pe2 e d).

Lemma sim_main_diagram_elements objects :
  sim_M (=) (main_diagram_elements repository pe1 objects)
            (main_diagram_elements repository pe2 objects).
Proof.
  induction objects as [|o os IH]; simpl; [apply sim_ret|].
  destruct (GetElementByID repository (do_ElementID o)) as [e|]; [|done].
  eapply sim_bind; [apply sim_gets, sim_visited|].
  intros v1 v2 Hv. rewrite (Hv (ElementID e)). destruct (negb _); [|done].
  eapply sim_bind; [apply sim_pe|]. intros r ? <-. destruct r as [n|]; [|done].
  eapply sim_bind; [apply IH|]. intros ns ? <-. apply sim_ret.
Qed.

Lemma sim_process_linked_diagrams_of diagrams :
  sim_M (=) (process_linked_diagrams_of repository pe1 diagrams)
            (process_linked_diagrams_of repository pe2 diagrams).
Proof.
  induction diagrams as [|d ds IH]; simpl; [apply sim_ret|].
  eapply sim_bind; [apply sim_gets, sim_vdiag|].
  intros v1 v2 Hv. rewrite (Hv (DiagramID d)). destruct (set_in _ _); [done|].
  eapply sim_bind; [by auto with sim|intros ? ? _].
  eapply sim_bind.
  { intros st1 st2 Hst. rewrite !linked_diagram_elements_eq.
    by apply sim_main_diagram_elements. }
  intros ns ? <-. eapply sim_bind; [apply IH|]. intros lds ? <-. apply sim_ret.
Qed.

Lemma sim_process_main_diagram package :
  sim_M (=) (process_main_diagram repository pe1 package)
            (process_main_diagram repository pe2 package).
Proof.
  unfold process_main_diagram.
  destruct (pkg_Diagrams package) as [|mainDiagram ds]; [apply sim_ret|].
  eapply sim_bind; [by auto with sim|intros ? ? _].
  eapply sim_bind; [apply sim_main_diagram_elements|]. intros ns ? <-.
  auto with sim.
Qed.

End loops.

Lemma sim_process_element fuel e d :
  sim_M (=) (process_element repository fuel e d)
            (process_element repository fuel e d).
Proof.
  revert e d. induction fuel as [|fuel IH]; intros e d; simpl; [by intros ? ? ?|].
  eapply sim_bind; [apply sim_gets, sim_visited|].
  intros v1 v2 Hv. rewrite (Hv (ElementID e)). destruct (set_in _ _).
  { apply sim_gets. by intros st1 st2 [_ _ _ _ _ ->]. }
  eapply sim_bind; [by auto with sim|intros ? ? _].
  eapply sim_bind.
  { destruct (bool_decide _); [apply sim_process_external_classifier|apply sim_ret]. }
  intros ? ? _.
  eapply sim_bind; [by apply sim_process_linked_diagrams_of|]. intros lds ? <-.
  eapply sim_bind; [apply sim_add_edges_from_connectors|]. intros ? ? _.
  repeat (eapply sim_bind; [by auto with sim|intros ? ? _]). auto with sim.
Qed.

Lemma sim_initial_state : sim initial_state initial_state.
Proof. split; simpl; try done; intros k; by rewrite !set_in_new. Qed.

Lemma run_traversal_sim fuel ea_pkg :
  run_traversal (SZ:=SZ1) (SS:=SS1) repository fuel ea_pkg
  = run_traversal (SZ:=SZ2) (SS:=SS2) repository fuel ea_pkg.
Proof.
  unfold run_traversal.
  pose proof (sim_process_main_diagram _ _ (sim_process_element fuel) ea_pkg
                _ _ sim_initial_state) as Hsim.
  unfold sim_result in Hsim.
  destruct (process_main_diagram _ _ _ _) as [[[] st1]| |],
           (process_main_diagram _ _ _ _) as [[[] st2]| |]; try done.
  - destruct Hsim as [_ []]. by f_equal; f_equal.
  - by subst.
Qed.

End simulation.

(** ** The string keys determine the identifiers

    [str] writes an optional sign and then decimal digits, so the pieces of
    an f-string of the shape [f"{i}-{j}-{s}"] can be read back. *)




Lemma append_nil r : "" +:+ r = r.
Proof. done. Qed.

Lemma append_cons c s r : String c s +:+ r = String c (s +:+ r).
Proof. done. Qed.









Global Instance diagram_key_inj : Inj (=) (=) diagram_key.
Proof.
  intros i j Heq. unfold diagram_key in Heq.
  rewrite !append_cons, !append_nil in Heq. injection Heq as Heq.
  by apply (inj pretty) in Heq.
Qed.

(** ** The two set representations obey the laws *)

Global Instance gset_PySetLaws `{Countable K} : PySetLaws K (gset K).
Proof.
  split; simpl.
  - intros k. by apply bool_decide_eq_false_2, not_elem_of_empty.
  - intros k k' s. apply bool_decide_ext_orb. set_solver.
Qed.

Global Instance list_PySetLaws `{EqDecision K} : PySetLaws K (list K).
Proof.
  split; simpl.
  - done.
  - intros k k' s. apply bool_decide_ext_orb. case_bool_decide; set_solver.
Qed.

(** ** The export as a whole *)

Lemma generate_graph_from_package_total ea_pkg repository :
  generate_graph_from_package ea_pkg repository ≠ OutOfFuel.
Proof.
  unfold generate_graph_from_package, generate_graph_from_package_with,
    run_traversal.
  pose proof (process_main_diagram_fuel repository ea_pkg) as Hfuel.
  by destruct (process_main_diagram _ _ _ _) as [[[] st]| |].
Qed.

Lemma generate_graph_from_package_grows ea_pkg repository g :
  generate_graph_from_package ea_pkg repository = Ok g →
  ∃ st' δ, grows_by repository initial_state st' [] δ ∧
           nodes g = d_nodes δ ∧ edges g = d_edges δ.
Proof.
  unfold generate_graph_from_package, generate_graph_from_package_with,
    run_traversal. intros Hrun.
  destruct (process_main_diagram _ _ _ _) as [[[] st']| |] eqn:Hmain; [|done..].
  injection Hrun as <-.
  apply process_main_diagram_grows in Hmain as [δ Hδ];
    [|intros; apply not_elem_of_empty].
  exists st', δ. split; [done|]. simpl.
  by rewrite (gb_nodes _ _ _ _ _ Hδ), (gb_edges _ _ _ _ _ Hδ).
Qed.

Lemma generate_graph_from_package_node_ids ea_pkg repository g :
  generate_graph_from_package ea_pkg repository = Ok g →
  NoDup (node_ids (nodes g)).
Proof.
  intros (st' & δ & Hδ & -> & _)%generate_graph_from_package_grows.
  apply (gb_nodup _ _ _ _ _ Hδ).
Qed.

Lemma NoDup_edge_triple (es : list Edge) :
  NoDup (edge_key <$> es) → NoDup (edge_triple <$> es).
Proof.
  intros Hes. apply (NoDup_fmap_1 (λ t : Z * Z * string, edgeID t.1.1 t.1.2 t.2)).
  by rewrite <-list_fmap_compose.
Qed.

(** * The sample model, exported *)

Lemma Sample_export :
  generate_graph_from_package Sample.package Sample.repository = Ok Sample.graph.
Proof. vm_compute. reflexivity. Qed.

(** * Properties of the export *)

(** C7. A root package without diagrams exports the empty graph: no package
    node, no edge, no exception. *)
Theorem empty_package_exports_empty_graph ea_pkg repository :
  pkg_Diagrams ea_pkg = [] →
  generate_graph_from_package ea_pkg repository = Ok {| nodes := []; edges := [] |}.
Proof.
  intros Hempty.
  unfold generate_graph_from_package, generate_graph_from_package_with,
    run_traversal, process_main_diagram.
  by rewrite Hempty.
Qed.

Lemma empty_package_exports_empty_graph_witness :
  generate_graph_from_package {| pkg_Name := "Empty"; pkg_Diagrams := [] |}
    Sample.repository
  = Ok {| nodes := []; edges := [] |}.
Proof.
  apply (empty_package_exports_empty_graph
           {| pkg_Name := "Empty"; pkg_Diagrams := [] |} Sample.repository).
  reflexivity.
Defined.

(** C4. No identifier is the ["id"] of two nodes of [graph["nodes"]]. *)
Theorem no_duplicate_nodes ea_pkg repository g :
  generate_graph_from_package ea_pkg repository = Ok g →
  NoDup (node_ids (nodes g)).
Proof. apply generate_graph_from_package_node_ids. Qed.

Lemma no_duplicate_nodes_witness : NoDup (node_ids (nodes Sample.graph)).
Proof.
  apply (no_duplicate_nodes Sample.package Sample.repository Sample.graph).
  vm_compute. reflexivity.
Defined.

(** C5. No two edges of [graph["edges"]] have the same source, target and
    type; of two connectors of an element that agree on the three, the first
    gives the edge and the second adds nothing. *)
Theorem no_duplicate_edges ea_pkg repository :
  (∀ g, generate_graph_from_package ea_pkg repository = Ok g →
        NoDup (edge_triple <$> edges g)) ∧
  (∀ c1 c2 s t s' t' (st : GState),
     GetElementByID repository (ClientID c1) = Some s →
     GetElementByID repository (SupplierID c1) = Some t →
     GetElementByID repository (ClientID c2) = Some s' →
     GetElementByID repository (SupplierID c2) = Some t' →
     ElementID s' = ElementID s → ElementID t' = ElementID t →
     conn_Type c2 = conn_Type c1 →
     edgeID (ElementID s) (ElementID t) (conn_Type c1) ∉ edge_set st →
     add_edges_from_connectors repository [c1; c2] st
     = Ok (tt, mkState (graph_nodes st)
                 (graph_edges st ++ [{| edge_from := ElementID s;
                                        edge_to := ElementID t;
                                        edge_type := conn_Type c1;
                                        edge_name := conn_Name c1 |}])
                 (visited_elements st) (visited_diagrams st)
                 ({[edgeID (ElementID s) (ElementID t) (conn_Type c1)]} ∪ edge_set st)
                 (processed_elements st))).
Proof.
  split.
  - intros g (st' & δ & Hδ & _ & ->)%generate_graph_from_package_grows.
    apply NoDup_edge_triple, (gb_enodup _ _ _ _ _ Hδ).
  - intros c1 c2 s t s' t' st Hs Ht Hs' Ht' Hss Htt Hty Hnew.
    unfold add_edges_from_connectors, add_edge_from_connector, bind, gets, ret.
    rewrite Hs, Ht, Hs', Ht', Hss, Htt, Hty. simpl.
    rewrite bool_decide_eq_false_2 by done. simpl.
    rewrite bool_decide_eq_true_2 by set_solver. done.
Qed.

Lemma no_duplicate_edges_witness :
  NoDup (edge_triple <$> edges Sample.graph) ∧
  add_edges_from_connectors Sample.repository [Sample.uses; Sample.places]
    (initial_state : GState)
  = Ok (tt, mkState [] [{| edge_from := 1; edge_to := 2;
                           edge_type := "Association"; edge_name := "uses" |}]
              ∅ ∅ ({[edgeID 1 2 "Association"]} ∪ ∅) ∅).
Proof.
  destruct (no_duplicate_edges Sample.package Sample.repository) as [H1 H2].
  split.
  - apply H1. vm_compute. reflexivity.
  - refine (H2 Sample.uses Sample.places Sample.Customer Sample.Order
              Sample.Customer Sample.Order initial_state _ _ _ _ _ _ _ _);
      try reflexivity.
    apply (bool_decide_unpack _). vm_compute. exact I.
Defined.

(** C6. No diagram is listed twice, neither under two elements nor under
    the package and an element; a linked diagram that is already marked is
    passed over without a change of state. *)
Theorem diagram_expanded_once ea_pkg repository :
  (∀ g, generate_graph_from_package ea_pkg repository = Ok g →
        NoDup (listed_diagrams (nodes g))) ∧
  (∀ pe diagram rest (st : GState),
     DiagramID diagram ∈ visited_diagrams st →
     process_linked_diagrams_of repository pe (diagram :: rest) st
     = process_linked_diagrams_of repository pe rest st).
Proof.
  split.
  - intros g (st' & δ & Hδ & -> & _)%generate_graph_from_package_grows.
    rewrite (gb_listed _ _ _ _ _ Hδ).
    pose proof (gb_dnodup _ _ _ _ _ Hδ) as [Hd _]%NoDup_app.
    by apply (NoDup_fmap_2 _).
  - intros pe diagram rest st Hv. simpl. unfold bind, gets. simpl.
    by rewrite bool_decide_eq_true_2.
Qed.

Lemma diagram_expanded_once_witness :
  NoDup (listed_diagrams (nodes Sample.graph)) ∧
  process_linked_diagrams_of Sample.repository
    (process_element Sample.repository 6) (Diagrams Sample.Invoice)
    (mkState [] [] ∅ {[7; 8]} ∅ ∅ : GState)
  = process_linked_diagrams_of Sample.repository
      (process_element Sample.repository 6) [Sample.overview]
      (mkState [] [] ∅ {[7; 8]} ∅ ∅ : GState).
Proof.
  destruct (diagram_expanded_once Sample.package Sample.repository) as [H1 H2].
  split.
  - apply H1. vm_compute. reflexivity.
  - apply H2. vm_compute. reflexivity.
Defined.

Lemma node_ids_unique (ns : list Node) n m i :
  NoDup (node_ids ns) → n ∈ ns → m ∈ ns →
  node_id n = Some i → node_id m = Some i → n = m.
Proof.
  unfold node_ids. induction ns as [|x ns IH]; intros Hnd Hn Hm Hni Hmi.
  { by apply elem_of_nil in Hn. }
  assert (∀ y, y ∈ ns → node_id y = Some i → i ∈ omap node_id ns) as Hin.
  { intros y Hy Hyi. apply list_elem_of_omap. by exists y. }
  simpl in Hnd. apply elem_of_cons in Hn as [->|Hn], Hm as [->|Hm]; [done|..].
  - rewrite Hni in Hnd. apply NoDup_cons in Hnd as [Hx _]. destruct Hx. eauto.
  - rewrite Hmi in Hnd. apply NoDup_cons in Hnd as [Hx _]. destruct Hx. eauto.
  - apply IH; try done. destruct (node_id x); [by apply NoDup_cons in Hnd as [_ ?]|done].
Qed.

Lemma generate_graph_from_package_origin ea_pkg repository g :
  generate_graph_from_package ea_pkg repository = Ok g →
  Forall (node_origin repository (list_to_set (node_ids (nodes g)))
            (list_to_set (edge_key <$> edges g))) (nodes g).
Proof.
  intros (st' & δ & Hδ & -> & ->)%generate_graph_from_package_grows.
  pose proof (gb_origin _ _ _ _ _ Hδ) as Horigin.
  rewrite (gb_visited _ _ _ _ _ Hδ), (gb_eset _ _ _ _ _ Hδ) in Horigin.
  eapply Forall_impl; [done|]. intros n. apply node_origin_mono; set_solver.
Qed.

(** C9. A classifier that resolves to an element not yet marked gets a
    reduced node: the node is appended, the element marked and recorded, and
    nothing else changes (no edge, no diagram).  In the exported graph the
    resolved classifier of every element node has a node, and an external
    node never shares its identifier with an element node. *)
Theorem external_classifier_node repository :
  (∀ classifierID classifier (st : GState),
     GetElementByID repository classifierID = Some classifier →
     ElementID classifier ∉ visited_elements st →
     process_external_classifier repository classifierID st
     = Ok (tt, mkState
                 (graph_nodes st ++
                    [ExternalNode (ElementID classifier) (elem_Name classifier)
                       (elem_Type classifier)
                       (pkg_Name <$> GetPackageByID repository (PackageID classifier))
                       (attribute_records (Attributes classifier))])
                 (graph_edges st)
                 ({[ElementID classifier]} ∪ visited_elements st)
                 (visited_diagrams st) (edge_set st)
                 (<[ElementID classifier := external_node repository classifier]>
                    (processed_elements st)))) ∧
  (∀ ea_pkg g,
     generate_graph_from_package ea_pkg repository = Ok g →
     (∀ id name type attributes linkedDiagrams position,
        ElementNode id name type attributes linkedDiagrams position ∈ nodes g →
        ∃ k element diag_object,
          Elements repository !! k = Some element ∧
          ElementNode id name type attributes linkedDiagrams position
          = element_node element diag_object linkedDiagrams ∧
          (ClassifierID element ≠ 0 →
           ∀ classifier,
             GetElementByID repository (ClassifierID element) = Some classifier →
             ElementID classifier ∈ node_ids (nodes g))) ∧
     (∀ id name type package attributes id' name' type' attributes'
        linkedDiagrams position,
        ExternalNode id name type package attributes ∈ nodes g →
        ElementNode id' name' type' attributes' linkedDiagrams position ∈ nodes g →
        id ≠ id')).
Proof.
  split; [|intros ea_pkg g Hrun; split].
  - intros classifierID classifier st Hc Hv.
    unfold process_external_classifier, bind, gets. rewrite Hc. simpl.
    by rewrite bool_decide_eq_false_2.
  - intros id name type attributes linkedDiagrams position Hn.
    pose proof (generate_graph_from_package_origin _ _ _ Hrun) as Horigin.
    rewrite Forall_forall in Horigin. specialize (Horigin _ Hn).
    destruct Horigin as (k & e & d & He & Heq & _ & Hcls).
    exists k, e, d. split_and!; [done..|].
    intros Hne c Hc. specialize (Hcls Hne c Hc). by apply elem_of_list_to_set in Hcls.
  - intros id name type package attributes id' name' type' attributes'
      linkedDiagrams position Hext Helem <-.
    pose proof (generate_graph_from_package_node_ids _ _ _ Hrun) as Hnd.
    by pose proof (node_ids_unique _ _ _ id Hnd Hext Helem eq_refl eq_refl).
Qed.

(** Membership in a list that is written out. *)
Ltac list_member :=
  cbn; repeat first [apply list_elem_of_here | apply list_elem_of_further].

Lemma external_classifier_node_witness :
  process_external_classifier Sample.repository 9
    (mkState [] [] {[2]} {[7]} ∅ ∅ : GState)
  = Ok (tt, mkState [Sample.status_node] [] ({[9]} ∪ {[2]}) {[7]} ∅
              (<[9 := Sample.status_node]> ∅)) ∧
  (∃ k element diag_object,
     Elements Sample.repository !! k = Some element ∧
     Sample.order_node
     = element_node element diag_object
         [MkDiagramNode "D8" "Details" "Diagram" [Sample.invoice_node]] ∧
     (ClassifierID element ≠ 0 →
      ∀ classifier,
        GetElementByID Sample.repository (ClassifierID element) = Some classifier →
        ElementID classifier ∈ node_ids (nodes Sample.graph))) ∧
  9 ≠ 2.
Proof.
  destruct (external_classifier_node Sample.repository) as [H1 H2].
  destruct (H2 Sample.package Sample.graph) as [H3 H4]; [vm_compute; reflexivity|].
  split_and!.
  - refine (H1 9 Sample.Status (mkState [] [] {[2]} {[7]} ∅ ∅) _ _);
      [reflexivity|].
    apply (bool_decide_unpack _). vm_compute. exact I.
  - apply (H3 2 "Order" "Class" []
             [MkDiagramNode "D8" "Details" "Diagram" [Sample.invoice_node]]
             Sample.position).
    list_member.
  - apply (H4 9 "Status" "Enumeration" (Some "Sales")
             [{| ar_id := 91; ar_name := "open"; ar_type := ""; ar_default := "0" |}]
             2 "Order" "Class" []
             [MkDiagramNode "D8" "Details" "Diagram" [Sample.invoice_node]]
             Sample.position); list_member.
Defined.




(** ** The element list of a diagram *)

Lemma main_diagram_elements_app {SZ SS} `{!PySet Z SZ}
    repository (pe : Element → option DiagramObject → M SZ SS (option Node))
    pre post (st st' : State SZ SS) ns :
  main_diagram_elements repository pe (pre ++ post) st = Ok (ns, st') →
  ∃ ns1 st1 ns2,
    main_diagram_elements repository pe pre st = Ok (ns1, st1) ∧
    main_diagram_elements repository pe post st1 = Ok (ns2, st') ∧
    ns = ns1 ++ ns2.
Proof.
  revert st ns. induction pre as [|o os IH]; intros st ns Hrun; simpl in *.
  { by exists [], st, ns. }
  destruct (GetElementByID repository (do_ElementID o)) as [e|]; [|by apply IH].
  unfold bind at 1, gets at 1 in Hrun. unfold bind at 1, gets at 1.
  destruct (negb _); [|by apply IH].
  unfold bind at 1 in Hrun. unfold bind at 1.
  destruct (pe e (Some o) st) as [[[n|] st0]| |]; [|by apply IH|done..].
  inv_bind Hrun as ns' st2 Hrest. inv_prim Hrun.
  apply IH in Hrest as (ns1 & st1 & ns2 & Hpre & Hpost & ->).
  exists (n :: ns1), st1, ns2. split_and!; [|done..].
  unfold bind, ret. by rewrite Hpre.
Qed.

Lemma main_diagram_elements_placement repository fuel
    pre diag_object post (st st' : GState) elements :
  let loop := main_diagram_elements repository (process_element repository fuel) in
  loop (pre ++ diag_object :: post) st = Ok (elements, st') →
  ∃ before st1 rest,
    loop pre st = Ok (before, st1) ∧
    elements = before ++ rest ∧
    match GetElementByID repository (do_ElementID diag_object) with
    | None => loop post st1 = Ok (rest, st')
    | Some diag_element =>
        if bool_decide (ElementID diag_element ∈ visited_elements st1)
        then loop post st1 = Ok (rest, st')
        else
          ∃ linkedDiagrams st2 after,
            process_element repository fuel diag_element (Some diag_object) st1
            = Ok (Some (element_node diag_element (Some diag_object)
                          linkedDiagrams), st2) ∧
            loop post st2 = Ok (after, st') ∧
            rest = element_node diag_element (Some diag_object) linkedDiagrams
                   :: after
    end.
Proof.
  intros loop Hrun. subst loop.
  apply main_diagram_elements_app in Hrun as (ns1 & st1 & ns2 & Hpre & Hpost & ->).
  exists ns1, st1, ns2. split_and!; [done..|]. simpl in Hpost.
  destruct (GetElementByID repository (do_ElementID diag_object)) as [e|] eqn:He;
    [|done].
  inv_step Hpost as ?. case_bool_decide as Hv; simpl in Hpost; [done|].
  inv_bind Hpost as r st2 Hpe.
  destruct (process_element_grows_fuel repository fuel _ _ _ _ _ _ He Hv Hpe)
    as (_ & _ & ld & ->).
  inv_bind Hpost as ns3 st3 Hrest. inv_prim Hpost.
  by exists ld, st2, ns3.
Qed.

(** C3, as the code has it.  The element list of an expanded diagram, main
    or linked, is built placement by placement, in placement order: a
    placement that does not resolve adds nothing; a placement whose element
    is already marked when the loop reaches it adds nothing either (the node
    built earlier is not used again); any other placement adds the node that
    [process_element] builds for it, with the position of this placement. *)
Theorem diagram_elements_in_placement_order repository fuel loop
    pre diag_object post (st st' : GState) elements :
  loop = main_diagram_elements repository (process_element repository fuel) ∨
  loop = linked_diagram_elements repository (process_element repository fuel) →
  loop (pre ++ diag_object :: post) st = Ok (elements, st') →
  ∃ before st1 rest,
    loop pre st = Ok (before, st1) ∧
    elements = before ++ rest ∧
    match GetElementByID repository (do_ElementID diag_object) with
    | None => loop post st1 = Ok (rest, st')
    | Some diag_element =>
        if bool_decide (ElementID diag_element ∈ visited_elements st1)
        then loop post st1 = Ok (rest, st')
        else
          ∃ linkedDiagrams st2 after,
            process_element repository fuel diag_element (Some diag_object) st1
            = Ok (Some (element_node diag_element (Some diag_object)
                          linkedDiagrams), st2) ∧
            loop post st2 = Ok (after, st') ∧
            rest = element_node diag_element (Some diag_object) linkedDiagrams
                   :: after
    end.
Proof.
  intros [-> | ->] Hrun; [by apply main_diagram_elements_placement|].
  rewrite linked_diagram_elements_eq in Hrun.
  apply main_diagram_elements_placement
    in Hrun as (ns1 & st1 & ns2 & Hpre & -> & Hrest).
  exists ns1, st1, ns2. rewrite !linked_diagram_elements_eq.
  split_and!; [done..|].
  destruct (GetElementByID repository (do_ElementID diag_object)) as [e|]; [|done].
  case_bool_decide; [done|].
  destruct Hrest as (ld & st2 & after & Hpe & Hpost & ->).
  exists ld, st2, after. by rewrite linked_diagram_elements_eq.
Qed.

Lemma diagram_elements_in_placement_order_witness :
  let loop := main_diagram_elements Sample.repository
                (process_element Sample.repository 6) in
  ∃ before st1 rest,
    loop [Sample.placement 1; Sample.placement 2] Sample.overview_entered
    = Ok (before, st1) ∧
    [Sample.customer_node; Sample.order_node] = before ++ rest ∧
    match GetElementByID Sample.repository (do_ElementID (Sample.placement 1)) with
    | None =>
        loop [Sample.placement 404; Sample.placement 9] st1
        = Ok (rest, Sample.overview_expanded)
    | Some diag_element =>
        if bool_decide (ElementID diag_element ∈ visited_elements st1)
        then loop [Sample.placement 404; Sample.placement 9] st1
             = Ok (rest, Sample.overview_expanded)
        else
          ∃ linkedDiagrams st2 after,
            process_element Sample.repository 6 diag_element
              (Some (Sample.placement 1)) st1
            = Ok (Some (element_node diag_element (Some (Sample.placement 1))
                          linkedDiagrams), st2) ∧
            loop [Sample.placement 404; Sample.placement 9] st2
            = Ok (after, Sample.overview_expanded) ∧
            rest = element_node diag_element (Some (Sample.placement 1))
                     linkedDiagrams :: after
    end.
Proof.
  intros loop.
  apply (diagram_elements_in_placement_order Sample.repository 6 loop
           [Sample.placement 1; Sample.placement 2] (Sample.placement 1)
           [Sample.placement 404; Sample.placement 9]
           Sample.overview_entered Sample.overview_expanded
           [Sample.customer_node; Sample.order_node]).
  - left. reflexivity.
  - vm_compute. reflexivity.
Defined.

(** C3, as specified, fails on the sample: of the five placements of
    the main diagram four resolve, and the diagram lists two nodes; the
    second placement of [Customer] and the placement of [Status], both
    already marked, are left out. *)
Lemma placement_reuse_counterexample :
  generate_graph_from_package Sample.package Sample.repository = Ok Sample.graph ∧
  Sample.package_node ∈ nodes Sample.graph ∧
  Sample.package_node
  = PackageNode "Sales" "Package"
      [MkDiagramNode "D7" "Overview" "Diagram"
         [Sample.customer_node; Sample.order_node]] ∧
  resolvable_placements Sample.repository Sample.overview
  = [Sample.Customer; Sample.Order; Sample.Customer; Sample.Status] ∧
  length [Sample.customer_node; Sample.order_node]
  ≠ length (resolvable_placements Sample.repository Sample.overview).
Proof.
  split_and!.
  - vm_compute. reflexivity.
  - list_member.
  - reflexivity.
  - vm_compute. reflexivity.
  - vm_compute. intros H. discriminate H.
Qed.

(** ** Identifiers that do not resolve *)

(** A placement whose element does not resolve is passed over. *)
Lemma main_diagram_elements_dangling {SZ SS} `{!PySet Z SZ} repository
    (pe : Element → option DiagramObject → M SZ SS (option Node))
    diag_object rest (st : State SZ SS) :
  GetElementByID repository (do_ElementID diag_object) = None →
  main_diagram_elements repository pe (diag_object :: rest) st
  = main_diagram_elements repository pe rest st.
Proof. intros Hnone. simpl. by rewrite Hnone. Qed.

(** So is a classifier that does not resolve. *)
Lemma process_external_classifier_dangling {SZ SS} `{!PySet Z SZ} repository
    classifierID (st : State SZ SS) :
  GetElementByID repository classifierID = None →
  process_external_classifier repository classifierID st = Ok (tt, st).
Proof. intros Hnone. unfold process_external_classifier. by rewrite Hnone. Qed.

(** A connector with an end that does not resolve is not: reading
    [ElementID] from [None] raises. *)
Lemma add_edge_from_connector_dangling {SZ SS} `{!PySet string SS} repository
    connector (st : State SZ SS) :
  GetElementByID repository (ClientID connector) = None ∨
  GetElementByID repository (SupplierID connector) = None →
  add_edge_from_connector repository connector st = Raise AttributeError.
Proof.
  unfold add_edge_from_connector. intros [-> | ->]; [done|].
  by destruct (GetElementByID repository (ClientID connector)).
Qed.

(** C2, where the code departs from it.  On the model of [Dangling], whose
    only element owns a connector to an identifier that is not in the
    repository, the export raises [AttributeError] and returns no graph. *)
Theorem dangling_connector_aborts_export :
  generate_graph_from_package Dangling.package Dangling.repository
  = Raise AttributeError.
Proof. vm_compute. reflexivity. Qed.

(** ** Determinism *)

(** C8. The export is a function of the package and the repository alone:
    whatever the layout of the three sets, as long as [in] answers according
    to what was added, the same nodes and the same edges come out in the
    same order (or the same exception is raised); so does any serialisation
    of the graph. *)
Theorem export_is_deterministic {SZ1 SS1 SZ2 SS2 : Type}
    `{!PySet Z SZ1, !PySet string SS1, !PySet Z SZ2, !PySet string SS2}
    `{!PySetLaws Z SZ1, !PySetLaws string SS1}
    `{!PySetLaws Z SZ2, !PySetLaws string SS2}
    (ea_pkg : Package) (repository : Repository) :
  generate_graph_from_package_with SZ1 SS1 ea_pkg repository
  = generate_graph_from_package_with SZ2 SS2 ea_pkg repository.
Proof. apply run_traversal_sim. Qed.

Lemma export_is_deterministic_witness :
  generate_graph_from_package_with (gset Z) (gset string)
    Sample.package Sample.repository
  = generate_graph_from_package_with (list Z) (list string)
      Sample.package Sample.repository.
Proof.
  apply (@export_is_deterministic (gset Z) (gset string) (list Z) (list string)
           _ _ _ _ gset_PySetLaws gset_PySetLaws list_PySetLaws list_PySetLaws
           Sample.package Sample.repository).
Defined.

(** ** The two-element scenario *)

Section scenario.
Variables (nameP nameD nameA typeA nameB typeB : string).
Variables (diagramID packageA packageB : Z).
Variables (attributesA attributesB : list Attribute).
Variables (leftA rightA topA bottomA leftB rightB topB bottomB : option Z).
Variable packages : gmap Z Package.

Definition scenario_A : Element :=
  {| ElementID := 1; elem_Name := nameA; elem_Type := typeA;
     Attributes := attributesA; ClassifierID := 0; PackageID := packageA;
     Diagrams := []; Connectors := [] |}.

Definition scenario_B : Element :=
  {| ElementID := 2; elem_Name := nameB; elem_Type := typeB;
     Attributes := attributesB; ClassifierID := 0; PackageID := packageB;
     Diagrams := [];
     Connectors := [{| ClientID := 1; SupplierID := 2;
                       conn_Type := "Association"; conn_Name := "uses" |}] |}.

Definition scenario_D : Diagram :=
  {| DiagramID := diagramID; diag_Name := nameD;
     DiagramObjects :=
       [{| do_ElementID := 1; do_left := leftA; do_right := rightA;
           do_top := topA; do_bottom := bottomA |};
        {| do_ElementID := 2; do_left := leftB; do_right := rightB;
           do_top := topB; do_bottom := bottomB |}] |}.

Definition scenario_P : Package :=
  {| pkg_Name := nameP; pkg_Diagrams := [scenario_D] |}.

Definition scenario_repository : Repository :=
  {| Elements := {[1 := scenario_A; 2 := scenario_B]}; Packages := packages |}.

Definition scenario_node_A : Node :=
  ElementNode 1 nameA typeA (attribute_records attributesA) []
    (Some {| pos_left := leftA; pos_right := rightA;
             pos_top := topA; pos_bottom := bottomA |}).

Definition scenario_node_B : Node :=
  ElementNode 2 nameB typeB (attribute_records attributesB) []
    (Some {| pos_left := leftB; pos_right := rightB;
             pos_top := topB; pos_bottom := bottomB |}).

Definition scenario_node_P : Node :=
  PackageNode nameP "Package"
    [MkDiagramNode (diagram_key diagramID) nameD "Diagram"
       [scenario_node_A; scenario_node_B]].

Definition scenario_edge : Edge :=
  {| edge_from := 1; edge_to := 2; edge_type := "Association";
     edge_name := "uses" |}.

(** C1, as the code has it.  The nodes come out in the order in which they
    are completed: [A], then [B], then the package node, which is appended
    after the loop over the placements of its diagram; the edge is as
    claimed. *)
Theorem scenario_export :
  generate_graph_from_package scenario_P scenario_repository
  = Ok {| nodes := [scenario_node_A; scenario_node_B; scenario_node_P];
          edges := [scenario_edge] |}.
Proof. vm_compute. reflexivity. Qed.

End scenario.

(** C1, as specified, fails: the package node is not the first node of the
    export but the last. *)
Lemma scenario_package_first_counterexample :
  let A := scenario_node_A "A" "Class" [] None None None None in
  let B := scenario_node_B "B" "Class" [] None None None None in
  let P := scenario_node_P "P" "D" "A" "Class" "B" "Class" 7 [] []
             None None None None None None None None in
  generate_graph_from_package
    (scenario_P "P" "D" 7 None None None None None None None None)
    (scenario_repository "A" "Class" "B" "Class" 100 100 [] [] ∅)
  ≠ Ok {| nodes := [P; A; B]; edges := [scenario_edge] |}.
Proof. vm_compute. intros H. discriminate H. Qed.

(** * Further properties of the graph builder

    A second account of what a run adds, kept apart from [grows_by]: where
    each node, each edge and each listed member comes from, and which
    diagrams were expanded. *)

Definition diagram_node_elements (d : DiagramNode) : list Node :=
  match d with MkDiagramNode _ _ _ elements => elements end.

Definition is_element_node (n : Node) : Prop :=
  match n with ElementNode _ _ _ _ _ _ => True | _ => False end.

(** An element node was built for a placement [o], one of [placed], that
    resolves to its element; the diagrams linked from the element are all
    marked, and the members of the diagram records under the node are
    element nodes that stand before it in [all].  An external node was built for the classifier
    of an element that has an element node in [all].  Package nodes are
    excluded. *)
Definition node_traced (repository : Repository)
    (placed : DiagramObject → Prop) (all : list Node)
    (vd : gset Z) (n : Node) : Prop :=
  match n with
  | ElementNode _ _ _ _ linkedDiagrams _ =>
      ∃ o e, placed o ∧
             GetElementByID repository (do_ElementID o) = Some e ∧
             n = element_node e (Some o) linkedDiagrams ∧
             (∀ dg, dg ∈ Diagrams e → DiagramID dg ∈ vd) ∧
             ∃ before after,
               all = before ++ n :: after ∧
               ∀ dn m, dn ∈ linkedDiagrams → m ∈ diagram_node_elements dn →
                       m ∈ before ∧ is_element_node m
  | ExternalNode _ _ _ _ _ =>
      ∃ o e linkedDiagrams c,
        GetElementByID repository (do_ElementID o) = Some e ∧
        element_node e (Some o) linkedDiagrams ∈ all ∧
        ClassifierID e ≠ 0 ∧
        GetElementByID repository (ClassifierID e) = Some c ∧
        n = external_node repository c
  | PackageNode _ _ _ => False
  end.

(** The edge that the loop of [add_edges_from_element] builds from a
    connector whose ends resolve to [s] and [t]. *)
Definition connector_edge (c : Connector) (s t : Element) : Edge :=
  {| edge_from := ElementID s; edge_to := ElementID t;
     edge_type := conn_Type c; edge_name := conn_Name c |}.

(** [edge] was built from a connector of [e]. *)
Definition edge_of_owner (repository : Repository) (e : Element) (edge : Edge)
    : Prop :=
  ∃ c s t, c ∈ Connectors e ∧
           GetElementByID repository (ClientID c) = Some s ∧
           GetElementByID repository (SupplierID c) = Some t ∧
           edge = connector_edge c s t.

(** [edge] was built from a connector of an element that has an element
    node in [all]. *)
Definition edge_traced (repository : Repository) (all : list Node)
    (edge : Edge) : Prop :=
  ∃ o e linkedDiagrams,
    GetElementByID repository (do_ElementID o) = Some e ∧
    element_node e (Some o) linkedDiagrams ∈ all ∧
    edge_of_owner repository e edge.

(** [d] is linked from an element of the repository, and every placement on
    it that resolves has its element marked. *)
Definition diagram_covered (repository : Repository) (ve : gset Z)
    (d : Diagram) : Prop :=
  (∃ k e, Elements repository !! k = Some e ∧ d ∈ Diagrams e) ∧
  ∀ o e, o ∈ DiagramObjects d →
         GetElementByID repository (do_ElementID o) = Some e →
         ElementID e ∈ ve.

Record trace := {
  t_nodes : list Node;
  t_edges : list Edge;
  t_diagrams : list Diagram
}.

Record traced_by (repository : Repository) (placed : DiagramObject → Prop)
    (st st' : GState) (τ : trace) : Prop := {
  tb_nodes : graph_nodes st' = graph_nodes st ++ t_nodes τ;
  tb_edges : graph_edges st' = graph_edges st ++ t_edges τ;
  tb_visited : visited_elements st ⊆ visited_elements st';
  tb_vdiag : visited_diagrams st ⊆ visited_diagrams st';
  tb_marked : ∀ z, z ∈ visited_diagrams st' →
                z ∈ visited_diagrams st ∨ ∃ d, d ∈ t_diagrams τ ∧ DiagramID d = z;
  tb_node :
    Forall (node_traced repository placed (graph_nodes st')
              (visited_diagrams st')) (t_nodes τ);
  tb_edge : Forall (edge_traced repository (graph_nodes st')) (t_edges τ);
  tb_diagram :
    Forall (diagram_covered repository (visited_elements st')) (t_diagrams τ)
}.

Definition traced (repository : Repository) (placed : DiagramObject → Prop)
    (st st' : GState) : Prop :=
  ∃ τ, traced_by repository placed st st' τ.

Lemma node_traced_mono repository placed all more vd vd' n :
  vd ⊆ vd' →
  node_traced repository placed all vd n →
  node_traced repository placed (all ++ more) vd' n.
Proof.
  intros Hvd. destruct n; simpl; [| |done].
  - intros (o & e & Hp & Ho & Heq & Hd & before & after & -> & Hm).
    exists o, e. split_and!; [done..| |].
    + intros dg Hdg. apply Hvd. by apply Hd.
    + exists before, (after ++ more). split; [|done].
      by rewrite <-(assoc_L (++)).
  - intros (o & e & ld & c & Ho & Hin & Hne & Hc & Heq). exists o, e, ld, c.
    split_and!; [done| |done..]. apply elem_of_app. by left.
Qed.

Lemma edge_traced_mono repository all all' edge :
  all ⊆ all' → edge_traced repository all edge → edge_traced repository all' edge.
Proof.
  intros Hall (o & e & ld & Ho & Hin & Hedge). exists o, e, ld.
  split_and!; [done|by apply Hall|done].
Qed.

Lemma diagram_covered_mono repository ve ve' d :
  ve ⊆ ve' → diagram_covered repository ve d → diagram_covered repository ve' d.
Proof.
  intros Hve [Hfrom Hd]. split; [done|].
  intros o e Ho He. apply Hve. by eapply Hd.
Qed.

Lemma traced_refl repository placed st : traced repository placed st st.
Proof.
  exists {| t_nodes := []; t_edges := []; t_diagrams := [] |}.
  split; simpl; rewrite ?app_nil_r; auto.
Qed.

Lemma traced_trans repository placed st st1 st2 :
  traced repository placed st st1 → traced repository placed st1 st2 →
  traced repository placed st st2.
Proof.
  intros [τ1 H1] [τ2 H2].
  exists {| t_nodes := t_nodes τ1 ++ t_nodes τ2;
            t_edges := t_edges τ1 ++ t_edges τ2;
            t_diagrams := t_diagrams τ1 ++ t_diagrams τ2 |}.
  destruct H1 as [Hn1 He1 Hv1 Hd1 Hm1 Hnode1 Hedge1 Hdiag1].
  destruct H2 as [Hn2 He2 Hv2 Hd2 Hm2 Hnode2 Hedge2 Hdiag2].
  assert (graph_nodes st1 ⊆ graph_nodes st2) as Hsub.
  { rewrite Hn2. intros x Hx. apply elem_of_app. by left. }
  split; simpl.
  - by rewrite Hn2, Hn1, (assoc_L (++)).
  - by rewrite He2, He1, (assoc_L (++)).
  - by etrans.
  - by etrans.
  - intros z Hz. destruct (Hm2 z Hz) as [Hz1|(d & Hd & <-)].
    + destruct (Hm1 z Hz1) as [?|(d & Hd & <-)]; [by left|].
      right. exists d. split; [|done]. apply elem_of_app. by left.
    + right. exists d. split; [|done]. apply elem_of_app. by right.
  - apply Forall_app. split; [|done].
    eapply Forall_impl; [done|]. intros n. rewrite Hn2.
    by apply node_traced_mono.
  - apply Forall_app. split; [|done].
    eapply Forall_impl; [done|]. intros n. by apply edge_traced_mono.
  - apply Forall_app. split; [|done].
    eapply Forall_impl; [done|]. intros d. by apply diagram_covered_mono.
Qed.

Section tracing.
Variable repository : Repository.
Variable placed : DiagramObject → Prop.
Hypothesis placed_linked :
  ∀ k e d o, Elements repository !! k = Some e → d ∈ Diagrams e →
             o ∈ DiagramObjects d → placed o.
Implicit Types st : GState.

(** The run of [process_external_classifier] appends at most one node, the
    reduced node of the element that the identifier resolves to, and leaves
    the edges and the marked diagrams alone. *)
Lemma process_external_classifier_shape classifierID st u st' :
  process_external_classifier repository classifierID st = Ok (u, st') →
  graph_edges st' = graph_edges st ∧
  visited_diagrams st' = visited_diagrams st ∧
  visited_elements st ⊆ visited_elements st' ∧
  ∃ ns, graph_nodes st' = graph_nodes st ++ ns ∧
        Forall (λ n, ∃ c, GetElementByID repository classifierID = Some c ∧
                          n = external_node repository c) ns.
Proof.
  unfold process_external_classifier. intros Hrun.
  destruct (GetElementByID repository classifierID) as [c|].
  - inv_step Hrun as ?. case_bool_decide as Hv; simpl in Hrun.
    + inv_prim Hrun. split_and!; [done..|]. exists []. by rewrite app_nil_r.
    + inv_step Hrun as ?. inv_step Hrun as ?. inv_prim Hrun.
      split_and!; [done..|set_solver|].
      exists [external_node repository c]. split; [done|].
      constructor; [by exists c|done].
  - inv_prim Hrun. split_and!; [done..|]. exists []. by rewrite app_nil_r.
Qed.

(** The run of [add_edges_from_element] touches the edges and their keys
    only, and every edge it appends is built from a connector it was
    given. *)
Lemma add_edges_from_connectors_owner e connectors st u st' :
  connectors ⊆ Connectors e →
  add_edges_from_connectors repository connectors st = Ok (u, st') →
  graph_nodes st' = graph_nodes st ∧
  visited_elements st' = visited_elements st ∧
  visited_diagrams st' = visited_diagrams st ∧
  processed_elements st' = processed_elements st ∧
  ∃ es, graph_edges st' = graph_edges st ++ es ∧
        Forall (edge_of_owner repository e) es.
Proof.
  revert st. induction connectors as [|c cs IH]; intros st Hsub Hrun;
    simpl in Hrun.
  { inv_prim Hrun. split_and!; [done..|]. exists []. by rewrite app_nil_r. }
  inv_bind Hrun as [] st1 Hc.
  apply IH in Hrun as (Hn & Hv & Hd & Hp & es & He & Hes);
    [|intros x Hx; apply Hsub; by right].
  rewrite Hn, Hv, Hd, Hp, He. clear IH Hn Hv Hd Hp He.
  unfold add_edge_from_connector in Hc.
  destruct (GetElementByID repository (ClientID c)) as [s|] eqn:Hs; [|done].
  destruct (GetElementByID repository (SupplierID c)) as [t|] eqn:Ht; [|done].
  inv_step Hc as ?. case_bool_decide as Hk; simpl in Hc.
  - inv_prim Hc. split_and!; [done..|]. by exists es.
  - inv_step Hc as ?. inv_prim Hc. simpl. split_and!; [done..|].
    exists (connector_edge c s t :: es). split; [by rewrite <-(assoc_L (++))|].
    constructor; [|done]. exists c, s, t. split_and!; [|done..].
    apply Hsub. by left.
Qed.

(** What the loops assume of the recursive call. *)
Definition process_element_traced
    (pe : Element → option DiagramObject → M (gset Z) (gset string) (option Node))
    : Prop :=
  ∀ o e st r st',
    placed o →
    GetElementByID repository (do_ElementID o) = Some e →
    ElementID e ∉ visited_elements st →
    pe e (Some o) st = Ok (r, st') →
    traced repository placed st st' ∧
    ∃ linkedDiagrams,
      r = Some (element_node e (Some o) linkedDiagrams) ∧
      element_node e (Some o) linkedDiagrams ∈ graph_nodes st'.

Section loops.
Variable pe : Element → option DiagramObject → M (gset Z) (gset string) (option Node).
Hypothesis pe_grows : process_element_grows repository pe.
Hypothesis pe_traced : process_element_traced pe.

Lemma main_diagram_elements_traced objects st ns st' :
  Forall placed objects →
  main_diagram_elements repository pe objects st = Ok (ns, st') →
  traced repository placed st st' ∧
  Forall (λ m, m ∈ graph_nodes st' ∧ is_element_node m) ns.
Proof.
  revert st ns.
  induction objects as [|o os IH]; intros st ns Hplaced Hrun; simpl in Hrun.
  { inv_prim Hrun. split; [apply traced_refl|done]. }
  apply Forall_cons in Hplaced as [Ho Hos].
  assert (∀ st ns, main_diagram_elements repository pe os st = Ok (ns, st') →
            traced repository placed st st' ∧
            Forall (λ m, m ∈ graph_nodes st' ∧ is_element_node m) ns) as IH'
    by (intros; by apply IH).
  clear IH. rename IH' into IH.
  destruct (GetElementByID repository (do_ElementID o)) as [e|] eqn:He;
    [|by apply IH].
  inv_step Hrun as ?. case_bool_decide as Hv; simpl in Hrun; [by apply IH|].
  inv_bind Hrun as r st1 Hpe.
  destruct (pe_traced _ _ _ _ _ Ho He Hv Hpe) as (Ht0 & ld & -> & Hin).
  inv_bind Hrun as ns' st2 Hrest. inv_prim Hrun.
  apply IH in Hrest as [[τ Hτ] Hns].
  split; [eapply traced_trans; [done|by exists τ]|].
  constructor; [|done]. split; [|done].
  rewrite (tb_nodes _ _ _ _ _ Hτ). apply elem_of_app. by left.
Qed.

Lemma traced_diagram st st1 st2 k e d :
  Elements repository !! k = Some e → d ∈ Diagrams e →
  visit_diagram (DiagramID d) st = Ok (tt, st1) →
  traced repository placed st1 st2 →
  diagram_covered repository (visited_elements st2) d →
  traced repository placed st st2.
Proof.
  intros He Hd Hvisit [τ Hτ] Hcov. inv_prim Hvisit.
  destruct Hτ as [Hn Hed Hv Hvd Hm Hnode Hedge Hdiag]. simpl in *.
  exists {| t_nodes := t_nodes τ; t_edges := t_edges τ;
            t_diagrams := d :: t_diagrams τ |}.
  split; simpl; try done.
  - set_solver.
  - intros z Hz. destruct (Hm z Hz) as [Hz'|(d' & Hd' & <-)].
    + apply elem_of_union in Hz' as [->%elem_of_singleton|?]; [|by left].
      right. exists d. split; [by left|done].
    + right. exists d'. split; [by right|done].
  - by constructor.
Qed.

Lemma process_linked_diagrams_of_traced k e diagrams st lds st' :
  Elements repository !! k = Some e → diagrams ⊆ Diagrams e →
  process_linked_diagrams_of repository pe diagrams st = Ok (lds, st') →
  traced repository placed st st' ∧
  (∀ dg, dg ∈ diagrams → DiagramID dg ∈ visited_diagrams st') ∧
  (∀ dn m, dn ∈ lds → m ∈ diagram_node_elements dn →
           m ∈ graph_nodes st' ∧ is_element_node m).
Proof.
  intros He. revert st lds.
  induction diagrams as [|d ds IH]; intros st lds Hsub Hrun; simpl in Hrun.
  { inv_prim Hrun. split_and!; [apply traced_refl|..].
    - by intros ? ?%elem_of_nil.
    - by intros ? ? ?%elem_of_nil. }
  assert (ds ⊆ Diagrams e) as Hsub' by (intros x Hx; apply Hsub; by right).
  inv_step Hrun as ?. case_bool_decide as Hv.
  - apply IH in Hrun as (Ht & Hmarked & Hmem); [|done].
    split_and!; [done| |done].
    intros dg [->|Hdg]%elem_of_cons; [|by apply Hmarked].
    destruct Ht as [τ Hτ]. by apply (tb_vdiag _ _ _ _ _ Hτ).
  - inv_bind Hrun as [] st1 Hvisit. inv_bind Hrun as ns st2 Hloop.
    rewrite linked_diagram_elements_eq in Hloop.
    pose proof (main_diagram_elements_grows _ _ pe_grows _ _ _ _ Hloop)
      as [_ Hcov].
    apply main_diagram_elements_traced in Hloop as [Ht1 Hns];
      [|apply Forall_forall; intros o Ho;
        eapply placed_linked; [done|apply Hsub; by left|done]].
    inv_bind Hrun as lds' st3 Hrest. inv_prim Hrun.
    apply IH in Hrest as (Ht2 & Hmarked & Hmem); [|done].
    assert (traced repository placed x st2) as Ht.
    { eapply traced_diagram; [done|apply Hsub; by left|done..|].
      split; [exists k, e; split; [done|apply Hsub; by left]|done]. }
    split_and!; [by eapply traced_trans| |].
    + intros dg [->|Hdg]%elem_of_cons; [|by apply Hmarked].
      destruct Ht2 as [τ Hτ]. apply (tb_vdiag _ _ _ _ _ Hτ).
      destruct Ht1 as [τ1 Hτ1]. apply (tb_vdiag _ _ _ _ _ Hτ1).
      inv_prim Hvisit. set_solver.
    + intros dn m [->|Hdn]%elem_of_cons Hm; [|by eapply Hmem].
      simpl in Hm. rewrite Forall_forall in Hns. destruct (Hns m Hm) as [Hin ?].
      split; [|done]. destruct Ht2 as [τ Hτ].
      rewrite (tb_nodes _ _ _ _ _ Hτ). apply elem_of_app. by left.
Qed.

End loops.

Lemma process_element_traced_fuel fuel :
  process_element_traced (process_element repository fuel).
Proof.
  induction fuel as [|fuel IH]; intros o e st r st' Hplaced He Hv Hrun; [done|].
  rewrite process_element_S in Hrun.
  inv_step Hrun as ?. rewrite bool_decide_eq_false_2 in Hrun by done.
  inv_bind Hrun as [] st1 Hvisit.
  inv_bind Hrun as [] st2 Hcls.
  inv_bind Hrun as lds st3 Hlinked.
  inv_bind Hrun as [] st4 Hedges.
  inv_step Hrun as ?. inv_step Hrun as ?. inv_prim Hrun.
  assert (graph_edges st2 = graph_edges st1 ∧
          visited_diagrams st2 = visited_diagrams st1 ∧
          visited_elements st1 ⊆ visited_elements st2 ∧
          ∃ exts, graph_nodes st2 = graph_nodes st1 ++ exts ∧
                  Forall (λ n, ClassifierID e ≠ 0 ∧
                               ∃ c, GetElementByID repository (ClassifierID e)
                                    = Some c ∧
                                    n = external_node repository c) exts)
    as (He2 & Hd2 & Hv2 & exts & Hn2 & Hexts).
  { case_bool_decide as Hne.
    - apply process_external_classifier_shape in Hcls
        as (? & ? & ? & exts & ? & Hexts).
      split_and!; [done..|]. exists exts. split; [done|].
      eapply Forall_impl; [done|]. by intros n ?.
    - inv_prim Hcls. split_and!; [done..|]. exists []. by rewrite app_nil_r. }
  unfold GetElementByID in He.
  apply (process_linked_diagrams_of_traced _ (process_element_grows_fuel _ fuel)
           IH _ _ _ _ _ _ He) in Hlinked as ([τ Hτ] & Hmarked & Hmem); [|done].
  apply (add_edges_from_connectors_owner e) in Hedges
    as (Hn4 & Hv4 & Hd4 & Hp4 & es & He4 & Hes); [|done].
  destruct Hτ as [Hn Hed Hvis Hvd Hm Hnode Hedge Hdiag].
  inv_prim Hvisit. simpl in *.
  set (node := element_node e (Some o) lds).
  assert (graph_nodes st3 ⊆ graph_nodes st3 ++ [node]) as Hsub.
  { intros y Hy. apply elem_of_app. by left. }
  assert (node ∈ graph_nodes st3 ++ [node]) as Hnode_in.
  { apply elem_of_app. right. by left. }
  split.
  - exists {| t_nodes := exts ++ t_nodes τ ++ [node]; t_edges := t_edges τ ++ es;
              t_diagrams := t_diagrams τ |}.
    split; simpl; rewrite ?Hn4, ?Hv4, ?Hd4, ?He4.
    + by rewrite Hn, Hn2, <-!(assoc_L (++)).
    + by rewrite Hed, He2, (assoc_L (++)).
    + set_solver.
    + set_solver.
    + intros z Hz. destruct (Hm z Hz) as [Hz'|?]; [|by right].
      left. by rewrite Hd2 in Hz'.
    + apply Forall_app. split; [|apply Forall_app; split].
      * eapply Forall_impl; [done|]. intros n (Hne & c & Hc & ->). simpl.
        by exists o, e, lds, c.
      * eapply Forall_impl; [done|]. intros n. by apply node_traced_mono.
      * constructor; [|done]. simpl. exists o, e. split_and!; [done..| |].
        -- done.
        -- exists (graph_nodes st3), []. split; [done|].
           intros dn m Hdn Hin. by destruct (Hmem dn m Hdn Hin).
    + apply Forall_app. split.
      * eapply Forall_impl; [done|]. intros n. by apply edge_traced_mono.
      * eapply Forall_impl; [done|]. intros edge Hedge'.
        by exists o, e, lds.
    + done.
  - exists lds. split; [done|]. by rewrite Hn4.
Qed.

End tracing.

(** The placements that an export of [ea_pkg] can come across: those of the
    first diagram of the package and those of the diagrams linked from the
    elements of the repository. *)
Definition placed_for (repository : Repository) (ea_pkg : Package)
    (o : DiagramObject) : Prop :=
  (∃ main rest, pkg_Diagrams ea_pkg = main :: rest ∧ o ∈ DiagramObjects main) ∨
  (∃ k e d, Elements repository !! k = Some e ∧ d ∈ Diagrams e ∧
            o ∈ DiagramObjects d).

(** Every placement of [d] that resolves has a node among [ns]. *)
Definition placements_have_nodes (repository : Repository) (ns : list Node)
    (d : Diagram) : Prop :=
  ∀ o e, o ∈ DiagramObjects d →
         GetElementByID repository (do_ElementID o) = Some e →
         ElementID e ∈ node_ids ns.

(** A diagram with identifier [z] was expanded: the first diagram of the
    package or a diagram linked from an element of the repository, all of
    whose resolving placements have nodes. *)
Definition expanded_with_id (repository : Repository) (ea_pkg : Package)
    (ns : list Node) (z : Z) : Prop :=
  ∃ d, DiagramID d = z ∧
       ((∃ rest, pkg_Diagrams ea_pkg = d :: rest) ∨
        (∃ k e, Elements repository !! k = Some e ∧ d ∈ Diagrams e)) ∧
       placements_have_nodes repository ns d.

Lemma generate_graph_from_package_inv ea_pkg repository g :
  generate_graph_from_package ea_pkg repository = Ok g →
  ∃ st' : GState,
    process_main_diagram repository
      (process_element repository (traversal_fuel repository)) ea_pkg
      initial_state = Ok (tt, st') ∧
    g = {| nodes := graph_nodes st'; edges := graph_edges st' |}.
Proof.
  unfold generate_graph_from_package, generate_graph_from_package_with,
    run_traversal. intros Hrun.
  destruct (process_main_diagram _ _ _ _) as [[[] st']| |]; [|done..].
  injection Hrun as <-. by exists st'.
Qed.

Lemma process_main_diagram_traced fuel ea_pkg repository main rest
    (st' : GState) :
  process_main_diagram repository (process_element repository fuel) ea_pkg
    initial_state = Ok (tt, st') →
  pkg_Diagrams ea_pkg = main :: rest →
  ∃ ns elements,
    graph_nodes st'
    = ns ++ [PackageNode (pkg_Name ea_pkg) "Package"
               [MkDiagramNode (diagram_key (DiagramID main))
                  (diag_Name main) "Diagram" elements]] ∧
    Forall (λ m, m ∈ ns ∧ is_element_node m) elements ∧
    Forall (edge_traced repository ns) (graph_edges st') ∧
    placements_have_nodes repository ns main ∧
    ∃ vd : gset Z,
      Forall (node_traced repository (placed_for repository ea_pkg) ns vd) ns ∧
      ∀ z, z ∈ vd → expanded_with_id repository ea_pkg ns z.
Proof.
  intros Hrun Hmain.
  pose proof Hrun as Hgrows.
  apply process_main_diagram_grows in Hgrows as [δ Hδ];
    [|intros; apply not_elem_of_empty].
  assert (process_element_grows repository (process_element repository fuel))
    as Hpg by apply process_element_grows_fuel.
  assert (process_element_traced repository (placed_for repository ea_pkg)
            (process_element repository fuel)) as Hpt.
  { apply process_element_traced_fuel.
    intros k e d o He Hd Ho. right. by exists k, e, d. }
  generalize dependent (process_element (SZ:=gset Z) (SS:=gset string)
                          repository fuel).
  intros pe Hrun Hpg Hpt.
  unfold process_main_diagram in Hrun. rewrite Hmain in Hrun.
  inv_step Hrun as ?. inv_bind Hrun as elements st2 Hloop.
  pose proof (main_diagram_elements_grows _ _ Hpg _ _ _ _ Hloop) as [Hg2 Hcov].
  apply (main_diagram_elements_traced repository (placed_for repository ea_pkg))
    in Hloop as [[τ Hτ] Hns]; [|done|]; cycle 1.
  { apply Forall_forall. intros o Ho. left. by exists main, rest. }
  inv_prim Hrun. simpl in *.
  destruct Hτ as [Hn Hed Hvis Hvd Hm Hnode Hedge Hdiag]. simpl in *.
  assert (visited_elements st2 = list_to_set (node_ids (t_nodes τ))) as Hve.
  { pose proof (gb_visited _ _ _ _ _ Hδ) as Hv'.
    pose proof (gb_nodes _ _ _ _ _ Hδ) as Hn'. simpl in Hv', Hn'.
    rewrite Hv', <-Hn', Hn, node_ids_app. simpl. rewrite app_nil_r. set_solver. }
  exists (t_nodes τ), elements. rewrite Hn in *. split_and!; [done..| | |].
  - by rewrite Hed.
  - intros o e Ho He. specialize (Hcov o e Ho He). rewrite Hve in Hcov.
    by apply elem_of_list_to_set in Hcov.
  - exists (visited_diagrams st2). split; [done|].
    intros z Hz. destruct (Hm z Hz) as [Hz'|(d & Hd & <-)].
    + assert (z = DiagramID main) as -> by set_solver.
      exists main. split_and!; [done|left; by exists rest|].
      intros o e Ho He. specialize (Hcov o e Ho He). rewrite Hve in Hcov.
      by apply elem_of_list_to_set in Hcov.
    + rewrite Forall_forall in Hdiag. destruct (Hdiag d Hd) as [Hfrom Hd'].
      exists d. split_and!; [done|by right|].
      intros o e Ho He. specialize (Hd' o e Ho He). rewrite Hve in Hd'.
      by apply elem_of_list_to_set in Hd'.
Qed.

Lemma export_traced ea_pkg repository g main rest :
  generate_graph_from_package ea_pkg repository = Ok g →
  pkg_Diagrams ea_pkg = main :: rest →
  ∃ ns elements,
    nodes g = ns ++ [PackageNode (pkg_Name ea_pkg) "Package"
                       [MkDiagramNode (diagram_key (DiagramID main))
                          (diag_Name main) "Diagram" elements]] ∧
    Forall (λ m, m ∈ ns ∧ is_element_node m) elements ∧
    Forall (edge_traced repository ns) (edges g) ∧
    placements_have_nodes repository ns main ∧
    ∃ vd : gset Z,
      Forall (node_traced repository (placed_for repository ea_pkg) ns vd) ns ∧
      ∀ z, z ∈ vd → expanded_with_id repository ea_pkg ns z.
Proof.
  intros (st' & Hrun & ->)%generate_graph_from_package_inv Hmain.
  by eapply process_main_diagram_traced.
Qed.

Lemma generate_graph_from_package_nil ea_pkg repository g :
  generate_graph_from_package ea_pkg repository = Ok g →
  pkg_Diagrams ea_pkg = [] → nodes g = [] ∧ edges g = [].
Proof.
  unfold generate_graph_from_package, generate_graph_from_package_with,
    run_traversal, process_main_diagram.
  intros Hrun Hnil. rewrite Hnil in Hrun. by injection Hrun as <-.
Qed.

Lemma node_ids_snoc_package ns name type diagrams :
  node_ids (ns ++ [PackageNode name type diagrams]) = node_ids ns.
Proof. rewrite node_ids_app. simpl. by rewrite app_nil_r. Qed.

(** X1. Every edge of the export was built from a connector owned by an
    element that has an element node in the export: its ends are the
    identifiers of the elements that the client and the supplier of the
    connector resolve to, its type and name are the connector's. *)
Theorem edges_come_from_connectors ea_pkg repository g edge :
  generate_graph_from_package ea_pkg repository = Ok g →
  edge ∈ edges g →
  ∃ o e linkedDiagrams c s t,
    GetElementByID repository (do_ElementID o) = Some e ∧
    element_node e (Some o) linkedDiagrams ∈ nodes g ∧
    c ∈ Connectors e ∧
    GetElementByID repository (ClientID c) = Some s ∧
    GetElementByID repository (SupplierID c) = Some t ∧
    edge = {| edge_from := ElementID s; edge_to := ElementID t;
              edge_type := conn_Type c; edge_name := conn_Name c |}.
Proof.
  intros Hrun Hedge.
  destruct (pkg_Diagrams ea_pkg) as [|main rest] eqn:Hmain.
  { destruct (generate_graph_from_package_nil _ _ _ Hrun Hmain) as [_ Hnil].
    rewrite Hnil in Hedge. by apply elem_of_nil in Hedge. }
  destruct (export_traced _ _ _ _ _ Hrun Hmain)
    as (ns & elements & Hnodes & _ & Hedges & _).
  rewrite Forall_forall in Hedges.
  destruct (Hedges edge Hedge) as (o & e & ld & Ho & Hin & c & s & t & ?).
  exists o, e, ld, c, s, t. split_and!; try tauto.
  rewrite Hnodes. apply elem_of_app. by left.
Qed.

Lemma edges_come_from_connectors_witness :
  ∃ o e linkedDiagrams c s t,
    GetElementByID Sample.repository (do_ElementID o) = Some e ∧
    element_node e (Some o) linkedDiagrams ∈ nodes Sample.graph ∧
    c ∈ Connectors e ∧
    GetElementByID Sample.repository (ClientID c) = Some s ∧
    GetElementByID Sample.repository (SupplierID c) = Some t ∧
    {| edge_from := 2; edge_to := 5; edge_type := "Dependency";
       edge_name := "needs" |}
    = {| edge_from := ElementID s; edge_to := ElementID t;
         edge_type := conn_Type c; edge_name := conn_Name c |}.
Proof.
  apply (edges_come_from_connectors Sample.package Sample.repository
           Sample.graph).
  - vm_compute. reflexivity.
  - list_member.
Defined.

(** X2. In an export of a package that has a diagram, the package node is
    the last node and the only one: every node before it carries an
    ["id"].  It holds one diagram record, that of the first diagram of the
    package. *)
Theorem package_node_is_last ea_pkg repository g main rest :
  generate_graph_from_package ea_pkg repository = Ok g →
  pkg_Diagrams ea_pkg = main :: rest →
  ∃ ns elements,
    nodes g = ns ++ [PackageNode (pkg_Name ea_pkg) "Package"
                       [MkDiagramNode (diagram_key (DiagramID main))
                          (diag_Name main) "Diagram" elements]] ∧
    Forall (λ n, is_Some (node_id n)) ns.
Proof.
  intros Hrun Hmain.
  destruct (export_traced _ _ _ _ _ Hrun Hmain)
    as (ns & elements & Hnodes & _ & _ & _ & vd & Hns & _).
  exists ns, elements. split; [done|].
  eapply Forall_impl; [done|]. intros n. by destruct n.
Qed.

Lemma package_node_is_last_witness :
  ∃ ns elements,
    nodes Sample.graph
    = ns ++ [PackageNode "Sales" "Package"
               [MkDiagramNode (diagram_key 7) "Overview" "Diagram" elements]] ∧
    Forall (λ n, is_Some (node_id n)) ns.
Proof.
  apply (package_node_is_last Sample.package Sample.repository Sample.graph
           Sample.overview [Sample.states]).
  - vm_compute. reflexivity.
  - reflexivity.
Defined.

(** X3. Every member of a diagram record listed under a node of the export,
    be it the diagram of the package node or a linked diagram of an element
    node, is itself an element node of [graph["nodes"]]. *)
Theorem diagram_members_are_nodes ea_pkg repository g n dn m :
  generate_graph_from_package ea_pkg repository = Ok g →
  n ∈ nodes g → dn ∈ node_diagrams n → m ∈ diagram_node_elements dn →
  m ∈ nodes g ∧ is_element_node m.
Proof.
  intros Hrun Hn Hdn Hm.
  destruct (pkg_Diagrams ea_pkg) as [|main rest] eqn:Hmain.
  { destruct (generate_graph_from_package_nil _ _ _ Hrun Hmain) as [Hnil _].
    rewrite Hnil in Hn. by apply elem_of_nil in Hn. }
  destruct (export_traced _ _ _ _ _ Hrun Hmain)
    as (ns & elements & Hnodes & Helements & _ & _ & vd & Hns & _).
  rewrite Hnodes in *.
  assert (∀ x, x ∈ ns → x ∈ ns ++ [PackageNode (pkg_Name ea_pkg) "Package"
            [MkDiagramNode (diagram_key (DiagramID main)) (diag_Name main)
               "Diagram" elements]]) as Hsub
    by (intros x Hx; apply elem_of_app; by left).
  rewrite Forall_forall in Helements, Hns.
  apply elem_of_app in Hn as [Hn| ->%list_elem_of_singleton].
  - specialize (Hns n Hn). destruct n; simpl in *.
    + destruct Hns as (o & e & _ & _ & _ & _ & before & after & Heq & Hmem).
      destruct (Hmem dn m Hdn Hm). split; [|done].
      apply Hsub. rewrite Heq. apply elem_of_app. by left.
    + by apply elem_of_nil in Hdn.
    + done.
  - simpl in Hdn. apply list_elem_of_singleton in Hdn as ->. simpl in Hm.
    destruct (Helements m Hm). auto.
Qed.

Lemma diagram_members_are_nodes_witness :
  Sample.invoice_node ∈ nodes Sample.graph ∧ is_element_node Sample.invoice_node.
Proof.
  apply (diagram_members_are_nodes Sample.package Sample.repository Sample.graph
           Sample.order_node
           (MkDiagramNode "D8" "Details" "Diagram" [Sample.invoice_node])).
  - vm_compute. reflexivity.
  - list_member.
  - list_member.
  - list_member.
Defined.

(** X4. An element node is never without a position: it was built for a
    placement that resolves to its element, on the first diagram of the
    package or on a diagram linked from an element of the repository, and
    its position is the geometry of that placement. *)
Theorem element_node_has_placement ea_pkg repository g
    id name type attributes linkedDiagrams position :
  generate_graph_from_package ea_pkg repository = Ok g →
  ElementNode id name type attributes linkedDiagrams position ∈ nodes g →
  ∃ o e,
    placed_for repository ea_pkg o ∧
    GetElementByID repository (do_ElementID o) = Some e ∧
    id = ElementID e ∧
    position = Some {| pos_left := do_left o; pos_right := do_right o;
                       pos_top := do_top o; pos_bottom := do_bottom o |}.
Proof.
  intros Hrun Hn.
  destruct (pkg_Diagrams ea_pkg) as [|main rest] eqn:Hmain.
  { destruct (generate_graph_from_package_nil _ _ _ Hrun Hmain) as [Hnil _].
    rewrite Hnil in Hn. by apply elem_of_nil in Hn. }
  destruct (export_traced _ _ _ _ _ Hrun Hmain)
    as (ns & elements & Hnodes & _ & _ & _ & vd & Hns & _).
  rewrite Hnodes in Hn.
  apply elem_of_app in Hn as [Hn|Hn%list_elem_of_singleton]; [|done].
  rewrite Forall_forall in Hns.
  destruct (Hns _ Hn) as (o & e & Hplaced & Ho & Heq & _).
  exists o, e. by injection Heq as -> _ _ _ ->.
Qed.

Lemma element_node_has_placement_witness :
  ∃ o e,
    placed_for Sample.repository Sample.package o ∧
    GetElementByID Sample.repository (do_ElementID o) = Some e ∧
    3 = ElementID e ∧
    Sample.position
    = Some {| pos_left := do_left o; pos_right := do_right o;
              pos_top := do_top o; pos_bottom := do_bottom o |}.
Proof.
  apply (element_node_has_placement Sample.package Sample.repository
           Sample.graph 3 "Invoice" "Class" [] []).
  - vm_compute. reflexivity.
  - list_member.
Defined.

Lemma placements_have_nodes_snoc repository ns name type diagrams d :
  placements_have_nodes repository ns d →
  placements_have_nodes repository (ns ++ [PackageNode name type diagrams]) d.
Proof. intros Hd o e Ho He. rewrite node_ids_snoc_package. by eapply Hd. Qed.

(** X5. Every placement on the first diagram of the package that resolves
    has a node for its element in the export, whether the element is listed
    under that diagram or was reached before on another path. *)
Theorem main_diagram_placements_have_nodes ea_pkg repository g main rest o e :
  generate_graph_from_package ea_pkg repository = Ok g →
  pkg_Diagrams ea_pkg = main :: rest →
  o ∈ DiagramObjects main →
  GetElementByID repository (do_ElementID o) = Some e →
  ElementID e ∈ node_ids (nodes g).
Proof.
  intros Hrun Hmain Ho He.
  destruct (export_traced _ _ _ _ _ Hrun Hmain)
    as (ns & elements & Hnodes & _ & _ & Hcov & _).
  rewrite Hnodes, node_ids_snoc_package. by eapply Hcov.
Qed.

Lemma main_diagram_placements_have_nodes_witness :
  ElementID Sample.Status ∈ node_ids (nodes Sample.graph).
Proof.
  apply (main_diagram_placements_have_nodes Sample.package Sample.repository
           Sample.graph Sample.overview [Sample.states] (Sample.placement 9)).
  - vm_compute. reflexivity.
  - reflexivity.
  - list_member.
  - reflexivity.
Defined.

(** X6. The diagrams linked from an element that has an element node are
    all accounted for: for each of them a diagram with its identifier, the
    first diagram of the package or a diagram linked from an element of the
    repository, was expanded, and every placement on that diagram that
    resolves has a node in the export. *)
Theorem linked_diagrams_are_expanded ea_pkg repository g
    id name type attributes linkedDiagrams position :
  generate_graph_from_package ea_pkg repository = Ok g →
  ElementNode id name type attributes linkedDiagrams position ∈ nodes g →
  ∃ o e,
    GetElementByID repository (do_ElementID o) = Some e ∧
    ElementNode id name type attributes linkedDiagrams position
    = element_node e (Some o) linkedDiagrams ∧
    ∀ dg, dg ∈ Diagrams e →
      expanded_with_id repository ea_pkg (nodes g) (DiagramID dg).
Proof.
  intros Hrun Hn.
  destruct (pkg_Diagrams ea_pkg) as [|main rest] eqn:Hmain.
  { destruct (generate_graph_from_package_nil _ _ _ Hrun Hmain) as [Hnil _].
    rewrite Hnil in Hn. by apply elem_of_nil in Hn. }
  destruct (export_traced _ _ _ _ _ Hrun Hmain)
    as (ns & elements & Hnodes & _ & _ & _ & vd & Hns & Hvd).
  rewrite Hnodes in Hn |- *.
  apply elem_of_app in Hn as [Hn|Hn%list_elem_of_singleton]; [|done].
  rewrite Forall_forall in Hns.
  destruct (Hns _ Hn) as (o & e & _ & Ho & Heq & Hmarked & _).
  exists o, e. split_and!; [done..|].
  intros dg Hdg. destruct (Hvd _ (Hmarked dg Hdg)) as (d & Hid & Hfrom & Hcov).
  exists d. split_and!; [done..|]. by apply placements_have_nodes_snoc.
Qed.

Lemma linked_diagrams_are_expanded_witness :
  ∃ o e,
    GetElementByID Sample.repository (do_ElementID o) = Some e ∧
    Sample.invoice_node = element_node e (Some o) [] ∧
    ∀ dg, dg ∈ Diagrams e →
      expanded_with_id Sample.repository Sample.package (nodes Sample.graph)
        (DiagramID dg).
Proof.
  apply (linked_diagrams_are_expanded Sample.package Sample.repository
           Sample.graph 3 "Invoice" "Class" [] [] Sample.position).
  - vm_compute. reflexivity.
  - list_member.
Defined.

(** X7. An external node is the reduced node of the classifier of an
    element that has an element node in the export; no external node is
    built for anything else. *)
Theorem external_nodes_are_classifiers ea_pkg repository g
    id name type package attributes :
  generate_graph_from_package ea_pkg repository = Ok g →
  ExternalNode id name type package attributes ∈ nodes g →
  ∃ o e linkedDiagrams c,
    GetElementByID repository (do_ElementID o) = Some e ∧
    element_node e (Some o) linkedDiagrams ∈ nodes g ∧
    ClassifierID e ≠ 0 ∧
    GetElementByID repository (ClassifierID e) = Some c ∧
    ExternalNode id name type package attributes = external_node repository c.
Proof.
  intros Hrun Hn.
  destruct (pkg_Diagrams ea_pkg) as [|main rest] eqn:Hmain.
  { destruct (generate_graph_from_package_nil _ _ _ Hrun Hmain) as [Hnil _].
    rewrite Hnil in Hn. by apply elem_of_nil in Hn. }
  destruct (export_traced _ _ _ _ _ Hrun Hmain)
    as (ns & elements & Hnodes & _ & _ & _ & vd & Hns & _).
  rewrite Hnodes in Hn |- *.
  apply elem_of_app in Hn as [Hn|Hn%list_elem_of_singleton]; [|done].
  rewrite Forall_forall in Hns.
  destruct (Hns _ Hn) as (o & e & ld & c & Ho & Hin & Hne & Hc & Heq).
  exists o, e, ld, c. split_and!; [done| |done..].
  apply elem_of_app. by left.
Qed.

Lemma external_nodes_are_classifiers_witness :
  ∃ o e linkedDiagrams c,
    GetElementByID Sample.repository (do_ElementID o) = Some e ∧
    element_node e (Some o) linkedDiagrams ∈ nodes Sample.graph ∧
    ClassifierID e ≠ 0 ∧
    GetElementByID Sample.repository (ClassifierID e) = Some c ∧
    Sample.status_node = external_node Sample.repository c.
Proof.
  apply (external_nodes_are_classifiers Sample.package Sample.repository
           Sample.graph 9 "Status" "Enumeration" (Some "Sales")
           [{| ar_id := 91; ar_name := "open"; ar_type := ""; ar_default := "0" |}]).
  - vm_compute. reflexivity.
  - list_member.
Defined.

(** X17. The nodes come out children first: the members of the diagram
    records listed under a node all stand before that node in
    [graph["nodes"]]. *)
Theorem members_precede_their_owner ea_pkg repository g n :
  generate_graph_from_package ea_pkg repository = Ok g →
  n ∈ nodes g →
  ∃ before after,
    nodes g = before ++ n :: after ∧
    ∀ dn m, dn ∈ node_diagrams n → m ∈ diagram_node_elements dn → m ∈ before.
Proof.
  intros Hrun Hn.
  destruct (pkg_Diagrams ea_pkg) as [|main rest] eqn:Hmain.
  { destruct (generate_graph_from_package_nil _ _ _ Hrun Hmain) as [Hnil _].
    rewrite Hnil in Hn. by apply elem_of_nil in Hn. }
  destruct (export_traced _ _ _ _ _ Hrun Hmain)
    as (ns & elements & Hnodes & Helements & _ & _ & vd & Hns & _).
  rewrite Hnodes in *.
  rewrite Forall_forall in Helements, Hns.
  apply elem_of_app in Hn as [Hn| ->%list_elem_of_singleton].
  - specialize (Hns n Hn). destruct n; simpl in *.
    + destruct Hns as (o & e & _ & _ & _ & _ & before & after & -> & Hmem).
      exists before, (after ++ [PackageNode (pkg_Name ea_pkg) "Package"
        [MkDiagramNode (diagram_key (DiagramID main)) (diag_Name main)
           "Diagram" elements]]).
      split; [by rewrite <-(assoc_L (++))|].
      intros dn m Hdn Hm. by destruct (Hmem dn m Hdn Hm).
    + apply list_elem_of_split in Hn as (before & after & ->).
      exists before, (after ++ [PackageNode (pkg_Name ea_pkg) "Package"
        [MkDiagramNode (diagram_key (DiagramID main)) (diag_Name main)
           "Diagram" elements]]).
      split; [by rewrite <-(assoc_L (++))|].
      by intros dn m ?%elem_of_nil.
    + done.
  - exists ns, []. split; [done|]. simpl.
    intros dn m ->%list_elem_of_singleton Hm. simpl in Hm.
    by destruct (Helements m Hm).
Qed.

Lemma members_precede_their_owner_witness :
  ∃ before after,
    nodes Sample.graph = before ++ Sample.order_node :: after ∧
    ∀ dn m, dn ∈ node_diagrams Sample.order_node →
            m ∈ diagram_node_elements dn → m ∈ before.
Proof.
  apply (members_precede_their_owner Sample.package Sample.repository
           Sample.graph Sample.order_node).
  - vm_compute. reflexivity.
  - list_member.
Defined.

(** ** Where a failed look-up can abort the export *)

Lemma bind_not_raise {SZ SS A B} (m : M SZ SS A) (f : A → M SZ SS B) st :
  (∀ x, m st ≠ Raise x) →
  (∀ a st1, m st = Ok (a, st1) → ∀ x, f a st1 ≠ Raise x) →
  ∀ x, bind m f st ≠ Raise x.
Proof.
  unfold bind. intros Hm Hf x.
  destruct (m st) as [[a st1]|y|]; [by apply Hf|by destruct (Hm y)|done].
Qed.

(** Both ends of every connector of every element of the repository
    resolve. *)
Definition connectors_resolve (repository : Repository) : Prop :=
  ∀ k e c, Elements repository !! k = Some e → c ∈ Connectors e →
           is_Some (GetElementByID repository (ClientID c)) ∧
           is_Some (GetElementByID repository (SupplierID c)).

Section no_exception.
Variable repository : Repository.
Hypothesis Hresolve : connectors_resolve repository.
Implicit Types st : GState.

Lemma add_edges_from_connectors_no_raise k e connectors st x :
  Elements repository !! k = Some e → connectors ⊆ Connectors e →
  add_edges_from_connectors repository connectors st ≠ Raise x.
Proof.
  intros He. revert st x.
  induction connectors as [|c cs IH]; intros st x Hsub; simpl; [done|].
  apply bind_not_raise.
  - intros y. unfold add_edge_from_connector.
    destruct (Hresolve k e c He) as [[s ->] [t ->]]; [apply Hsub; by left|].
    unfold bind, gets; simpl. by case_bool_decide.
  - intros [] st1 _ y. apply IH. intros z Hz. apply Hsub. by right.
Qed.

Lemma process_external_classifier_no_raise classifierID st x :
  process_external_classifier repository classifierID st ≠ Raise x.
Proof.
  by destruct (process_external_classifier_returns repository classifierID st)
    as [st' ->].
Qed.

Section loops.
Variable pe : Element → option DiagramObject → M (gset Z) (gset string) (option Node).
Hypothesis pe_no_raise :
  ∀ k e d st x, Elements repository !! k = Some e → pe e d st ≠ Raise x.

Lemma main_diagram_elements_no_raise objects st x :
  main_diagram_elements repository pe objects st ≠ Raise x.
Proof.
  revert st x. induction objects as [|o os IH]; intros st x; simpl; [done|].
  destruct (GetElementByID repository (do_ElementID o)) as [e|] eqn:He; [|done].
  apply bind_not_raise; [done|]. intros visited ? [= <- <-] y.
  destruct (negb _); [|done].
  apply bind_not_raise; [intros z; by eapply pe_no_raise|].
  intros [n|] st1 _ z; [|done]. apply bind_not_raise; [done|by intros].
Qed.

Lemma process_linked_diagrams_of_no_raise diagrams st x :
  process_linked_diagrams_of repository pe diagrams st ≠ Raise x.
Proof.
  revert st x. induction diagrams as [|d ds IH]; intros st x; simpl; [done|].
  apply bind_not_raise; [done|]. intros visited ? [= <- <-] y.
  destruct (bool_decide _); [done|].
  apply bind_not_raise; [done|]. intros [] st1 _ z.
  apply bind_not_raise.
  { intros w. rewrite linked_diagram_elements_eq.
    apply main_diagram_elements_no_raise. }
  intros ns st2 _ w. apply bind_not_raise; [done|by intros].
Qed.

End loops.

Lemma process_element_no_raise fuel k e d st x :
  Elements repository !! k = Some e →
  process_element repository fuel e d st ≠ Raise x.
Proof.
  revert k e d st x. induction fuel as [|fuel IH]; intros k e d st x He; [done|].
  rewrite process_element_S.
  apply bind_not_raise; [done|]. intros visited ? [= <- <-] y.
  destruct (set_in _ _); [done|].
  apply bind_not_raise; [done|]. intros [] st1 _ z.
  apply bind_not_raise.
  { intros w. destruct (bool_decide _); [|done].
    apply process_external_classifier_no_raise. }
  intros [] st2 _ w. apply bind_not_raise.
  { intros v. apply process_linked_diagrams_of_no_raise. intros; by eapply IH. }
  intros lds st3 _ v. apply bind_not_raise; [|by intros].
  intros u. by eapply add_edges_from_connectors_no_raise.
Qed.

Lemma process_main_diagram_no_raise fuel ea_pkg st x :
  process_main_diagram repository (process_element repository fuel) ea_pkg st
  ≠ Raise x.
Proof.
  unfold process_main_diagram.
  destruct (pkg_Diagrams ea_pkg) as [|main rest]; [done|].
  apply bind_not_raise; [done|]. intros [] st1 _ y.
  apply bind_not_raise; [|by intros].
  intros z. apply main_diagram_elements_no_raise.
  intros; by eapply process_element_no_raise.
Qed.

End no_exception.

(** X8. A look-up that fails aborts the export at a connector only: when
    both ends of every connector in the repository resolve, the export of
    any package raises no [AttributeError], whatever else fails to resolve
    (placements, classifiers, owning packages).  The statement is about this
    exception and no other: how deep the interpreter lets the linked
    diagrams nest is not part of the model. *)
Theorem no_attribute_error_when_connectors_resolve ea_pkg repository :
  connectors_resolve repository →
  generate_graph_from_package ea_pkg repository ≠ Raise AttributeError.
Proof.
  intros Hresolve.
  pose proof (process_main_diagram_no_raise repository Hresolve
                (traversal_fuel repository) ea_pkg initial_state) as Hraise.
  unfold generate_graph_from_package, generate_graph_from_package_with,
    run_traversal.
  destruct (process_main_diagram _ _ _ _) as [[[] st]|x|]; [done| |done].
  by destruct (Hraise x).
Qed.

(** A decision procedure for [connectors_resolve]. *)
Definition connectors_resolveb (repository : Repository) : bool :=
  bool_decide
    (map_Forall
       (λ _ e, Forall (λ c, is_Some (GetElementByID repository (ClientID c)) ∧
                            is_Some (GetElementByID repository (SupplierID c)))
                 (Connectors e))
       (Elements repository)).

Lemma connectors_resolveb_correct repository :
  connectors_resolveb repository = true → connectors_resolve repository.
Proof.
  intros Hb%bool_decide_eq_true k e c He Hc.
  specialize (Hb k e He). rewrite Forall_forall in Hb. by apply Hb.
Qed.

Lemma no_attribute_error_when_connectors_resolve_witness :
  generate_graph_from_package Sample.package Sample.repository
  ≠ Raise AttributeError.
Proof.
  apply (no_attribute_error_when_connectors_resolve Sample.package
           Sample.repository).
  apply connectors_resolveb_correct. vm_compute. reflexivity.
Defined.

(** ** Calling [process_element] again *)

(** X9. [process_element] is idempotent per identifier: once a call for an
    element of the repository has returned, a further call for an element
    with the same identifier returns the same result and leaves the state
    as it is; the node recorded in [processed_elements] is read back. *)
Theorem process_element_again repository fuel fuel' k e e' d d'
    (st st' : GState) r :
  Elements repository !! k = Some e →
  ElementID e' = ElementID e →
  process_element repository fuel e d st = Ok (r, st') →
  process_element repository (S fuel') e' d' st' = Ok (r, st').
Proof.
  intros He Hid Hrun. rewrite process_element_S, Hid.
  unfold bind at 1, gets at 1. simpl.
  destruct fuel as [|fuel]; [done|].
  destruct (decide (ElementID e ∈ visited_elements st)) as [Hv|Hv].
  - rewrite process_element_S in Hrun.
    unfold bind at 1, gets at 1 in Hrun. simpl in Hrun.
    rewrite bool_decide_eq_true_2 in Hrun by done. inv_prim Hrun.
    by rewrite bool_decide_eq_true_2.
  - destruct (process_element_grows_fuel repository (S fuel) _ _ _ _ _ _
                He Hv Hrun) as (_ & Hin & ld & ->).
    rewrite bool_decide_eq_true_2 by done.
    rewrite process_element_S in Hrun.
    inv_step Hrun as ?. rewrite bool_decide_eq_false_2 in Hrun by done.
    inv_bind Hrun as [] st1 Hvisit.
    inv_bind Hrun as [] st2 Hcls.
    inv_bind Hrun as lds st3 Hlinked.
    inv_bind Hrun as [] st4 Hedges.
    inv_step Hrun as ?. inv_step Hrun as ?. inv_prim Hrun.
    unfold gets. simpl. by rewrite lookup_insert_eq.
Qed.

Lemma process_element_again_witness :
  process_element Sample.repository 1 Sample.Customer None
    (mkState [Sample.customer_node] [] {[1]} {[7]} ∅
       {[1 := Sample.customer_node]} : GState)
  = Ok (Some Sample.customer_node,
        mkState [Sample.customer_node] [] {[1]} {[7]} ∅
          {[1 := Sample.customer_node]}).
Proof.
  apply (process_element_again Sample.repository 6 0 1 Sample.Customer
           Sample.Customer (Some (Sample.placement 1)) None
           Sample.overview_entered).
  - reflexivity.
  - reflexivity.
  - vm_compute. reflexivity.
Defined.

(** ** What the export does not look at *)

Lemma main_diagram_elements_resolvable {SZ SS} `{!PySet Z SZ} repository
    (pe : Element → option DiagramObject → M SZ SS (option Node)) objects
    (st : State SZ SS) :
  main_diagram_elements repository pe
    (filter (λ o, is_Some (GetElementByID repository (do_ElementID o))) objects)
    st
  = main_diagram_elements repository pe objects st.
Proof.
  revert st. induction objects as [|o os IH]; intros st; [done|].
  rewrite filter_cons. case_decide as Ho.
  - simpl. destruct Ho as [e ->]. unfold bind, gets.
    destruct (negb _); [|done].
    destruct (pe e (Some o) st) as [[[n|] st1]| |]; [|done..].
    by rewrite IH.
  - simpl. rewrite IH.
    destruct (GetElementByID repository (do_ElementID o)) as [e|]; [|done].
    by destruct Ho.
Qed.

(** The first diagram of a package, without the placements that do not
    resolve. *)
Definition resolvable_diagram (repository : Repository) (d : Diagram)
    : Diagram :=
  {| DiagramID := DiagramID d; diag_Name := diag_Name d;
     DiagramObjects :=
       filter (λ o, is_Some (GetElementByID repository (do_ElementID o)))
         (DiagramObjects d) |}.

(** X10. The export of a package depends on its name and its first diagram
    only, and not on the placements of that diagram that do not resolve:
    dropping the further diagrams and the dangling placements gives the
    same result. *)
Theorem export_ignores_dangling_placements ea_pkg repository main rest :
  pkg_Diagrams ea_pkg = main :: rest →
  generate_graph_from_package
    {| pkg_Name := pkg_Name ea_pkg;
       pkg_Diagrams := [resolvable_diagram repository main] |} repository
  = generate_graph_from_package ea_pkg repository.
Proof.
  intros Hmain.
  unfold generate_graph_from_package, generate_graph_from_package_with,
    run_traversal, process_main_diagram. rewrite Hmain. simpl.
  unfold bind at 1 3. simpl. unfold bind at 1 3.
  by rewrite main_diagram_elements_resolvable.
Qed.

Lemma export_ignores_dangling_placements_witness :
  generate_graph_from_package
    {| pkg_Name := "Sales";
       pkg_Diagrams := [resolvable_diagram Sample.repository Sample.overview] |}
    Sample.repository
  = generate_graph_from_package Sample.package Sample.repository.
Proof.
  apply (export_ignores_dangling_placements Sample.package Sample.repository
           Sample.overview [Sample.states]).
  reflexivity.
Defined.

(** * The package tree

    [recursive_collect_packages] and [get_all_packages] walk the packages of
    the project.  A package as they see it: the name and the diagrams that
    the graph builder reads, the identifier of the parent (zero for a
    top-level model) and the sub-packages, in the order of the
    collection. *)

#[local] Set Warnings "-register-all".

Inductive PackageTree :=
  | MkPackageTree (package : Package) (ParentID : Z)
      (sub_packages : list PackageTree).

Definition tree_package (t : PackageTree) : Package :=
  match t with MkPackageTree package _ _ => package end.

Definition ParentID (t : PackageTree) : Z :=
  match t with MkPackageTree _ ParentID _ => ParentID end.

Definition sub_packages (t : PackageTree) : list PackageTree :=
  match t with MkPackageTree _ _ sub_packages => sub_packages end.

Definition Name (t : PackageTree) : string := pkg_Name (tree_package t).

(** [packages = [ea_package]], then one [extend] per sub-package. *)
Fixpoint recursive_collect_packages (ea_package : PackageTree)
    : list PackageTree :=
  (fix extend (packages : list PackageTree) (rest : list PackageTree)
     : list PackageTree :=
     match rest with
     | [] => packages
     | sub_pkg :: rest =>
         extend (packages ++ recursive_collect_packages sub_pkg) rest
     end) [ea_package] (sub_packages ea_package).

(** [repository.Models] is the list of the top-level models. *)
Definition get_all_packages (Models : list PackageTree) : list PackageTree :=
  fold_left (λ packages model, packages ++ recursive_collect_packages model)
    Models [].

(** The number of packages of a tree. *)
Fixpoint tree_size (t : PackageTree) : nat :=
  match t with
  | MkPackageTree _ _ subs => S (list_sum (map tree_size subs))
  end.

(** [nested p t]: [p] is [t] or a package nested in [t], at any depth. *)
Inductive nested (p : PackageTree) : PackageTree → Prop :=
  | nested_here : nested p p
  | nested_sub t c : c ∈ sub_packages t → nested p c → nested p t.

Lemma PackageTree_nested_ind (P : PackageTree → Prop) :
  (∀ t, Forall P (sub_packages t) → P t) → ∀ t, P t.
Proof.
  intros step. fix IH 1. intros [package parent subs]. apply step. simpl.
  induction subs as [|c cs IHcs]; constructor; [apply IH|apply IHcs].
Qed.

(** The loop of [recursive_collect_packages], with the recursive call as a
    parameter. *)
Definition extend_each (collect : PackageTree → list PackageTree)
    : list PackageTree → list PackageTree → list PackageTree :=
  fix extend packages rest :=
    match rest with
    | [] => packages
    | sub_pkg :: rest => extend (packages ++ collect sub_pkg) rest
    end.

Lemma recursive_collect_packages_unfold t :
  recursive_collect_packages t
  = extend_each recursive_collect_packages [t] (sub_packages t).
Proof. by destruct t. Qed.

Lemma extend_each_eq collect packages rest :
  extend_each collect packages rest = packages ++ (rest ≫= collect).
Proof.
  revert packages. induction rest as [|c cs IH]; intros packages; simpl.
  - by rewrite app_nil_r.
  - by rewrite IH, (assoc_L (++)).
Qed.

Lemma recursive_collect_packages_eq t :
  recursive_collect_packages t
  = t :: (sub_packages t ≫= recursive_collect_packages).
Proof. by rewrite recursive_collect_packages_unfold, extend_each_eq. Qed.

Lemma get_all_packages_eq Models :
  get_all_packages Models = Models ≫= recursive_collect_packages.
Proof.
  unfold get_all_packages.
  assert (∀ acc, fold_left (λ packages model,
                    packages ++ recursive_collect_packages model) Models acc
                 = acc ++ (Models ≫= recursive_collect_packages)) as Hacc.
  { induction Models as [|m ms IH]; intros acc; simpl.
    - by rewrite app_nil_r.
    - by rewrite IH, (assoc_L (++)). }
  by rewrite Hacc.
Qed.

Lemma nested_trans p q t : nested p q → nested q t → nested p t.
Proof.
  intros Hpq Hqt. induction Hqt as [|t c Hc Hqc IH]; [done|].
  by eapply nested_sub.
Qed.

Lemma elem_of_recursive_collect_packages p t :
  p ∈ recursive_collect_packages t ↔ nested p t.
Proof.
  split.
  - revert p. induction t as [t IH] using PackageTree_nested_ind. intros p.
    rewrite recursive_collect_packages_eq.
    intros [->|Hp]%elem_of_cons; [constructor|].
    apply list_elem_of_bind in Hp as (c & Hp & Hc).
    rewrite Forall_forall in IH. eapply nested_sub; [done|]. by apply IH.
  - induction 1 as [|t c Hc Hpc IH]; rewrite recursive_collect_packages_eq.
    + by left.
    + right. apply list_elem_of_bind. by exists c.
Qed.

Lemma length_recursive_collect_packages t :
  length (recursive_collect_packages t) = tree_size t.
Proof.
  induction t as [t IH] using PackageTree_nested_ind.
  rewrite recursive_collect_packages_eq. destruct t as [package parent subs].
  cbn [sub_packages tree_size length] in *. f_equal.
  induction subs as [|c cs IHcs]; [done|].
  apply Forall_cons in IH as [Hc Hcs].
  rewrite bind_cons, length_app, Hc, IHcs by done. done.
Qed.

(** X11. [recursive_collect_packages] lists the package it is given first
    and then exactly the packages nested in it: a package is in the list if
    and only if it is that package or nested in it at some depth, and the
    list is as long as the tree has packages. *)
Theorem recursive_collect_packages_lists_tree t :
  head (recursive_collect_packages t) = Some t ∧
  length (recursive_collect_packages t) = tree_size t ∧
  ∀ p, p ∈ recursive_collect_packages t ↔ nested p t.
Proof.
  split_and!.
  - by rewrite recursive_collect_packages_eq.
  - apply length_recursive_collect_packages.
  - intros p. apply elem_of_recursive_collect_packages.
Qed.

Lemma recursive_collect_packages_segment p t :
  nested p t →
  ∃ before after,
    recursive_collect_packages t
    = before ++ recursive_collect_packages p ++ after.
Proof.
  induction 1 as [|t c Hc Hpc (l1 & l2 & IH)].
  - exists [], []. by rewrite app_nil_r.
  - rewrite (recursive_collect_packages_eq t).
    apply list_elem_of_split in Hc as (cs1 & cs2 & ->).
    rewrite bind_app, bind_cons, IH.
    exists (t :: (cs1 ≫= recursive_collect_packages) ++ l1),
           (l2 ++ (cs2 ≫= recursive_collect_packages)).
    simpl. f_equal. by rewrite <-!(assoc_L (++)).
Qed.

(** X12. The listing is in pre-order: for every package in the list of a
    tree, the list of that package (itself, then all that is nested in it)
    occurs in the list of the tree as one unbroken stretch. *)
Theorem nested_packages_are_listed_together p t :
  p ∈ recursive_collect_packages t →
  ∃ before after,
    recursive_collect_packages t
    = before ++ recursive_collect_packages p ++ after.
Proof.
  intros Hp%elem_of_recursive_collect_packages.
  by apply recursive_collect_packages_segment.
Qed.

(** X13. [get_all_packages] lists exactly the packages of the model trees,
    one tree after the other: a package is in the list if and only if it is
    one of the models or nested in one, the length of the list is the
    number of packages of all the trees, and each model is followed by what
    is nested in it before the next model begins. *)
Theorem get_all_packages_lists_models Models :
  (∀ p, p ∈ get_all_packages Models ↔ ∃ m, m ∈ Models ∧ nested p m) ∧
  length (get_all_packages Models) = list_sum (tree_size <$> Models) ∧
  get_all_packages Models = mjoin (recursive_collect_packages <$> Models).
Proof.
  rewrite get_all_packages_eq. split_and!.
  - intros p. rewrite list_elem_of_bind.
    setoid_rewrite elem_of_recursive_collect_packages. naive_solver.
  - induction Models as [|m ms IH]; [done|].
    rewrite bind_cons, length_app, length_recursive_collect_packages, IH.
    done.
  - induction Models as [|m ms IH]; [done|].
    rewrite bind_cons, fmap_cons, IH. done.
Qed.

(** A sample project tree: one model with the packages [Sales] and
    [Billing]; [Sales] holds [Archive], [Billing] holds a second package
    named [Sales]. *)
Module SampleTree.

Definition archive : PackageTree :=
  MkPackageTree {| pkg_Name := "Archive"; pkg_Diagrams := [] |} 2 [].

Definition sales : PackageTree := MkPackageTree Sample.package 1 [archive].

Definition sales_again : PackageTree :=
  MkPackageTree {| pkg_Name := "Sales"; pkg_Diagrams := [Sample.states] |} 3 [].

Definition billing : PackageTree :=
  MkPackageTree {| pkg_Name := "Billing"; pkg_Diagrams := [] |} 1 [sales_again].

Definition model : PackageTree :=
  MkPackageTree {| pkg_Name := "Model"; pkg_Diagrams := [] |} 0 [sales; billing].

End SampleTree.

Lemma nested_packages_are_listed_together_witness :
  ∃ before after,
    recursive_collect_packages SampleTree.model
    = before ++ recursive_collect_packages SampleTree.sales ++ after.
Proof.
  apply (nested_packages_are_listed_together SampleTree.sales SampleTree.model).
  vm_compute. list_member.
Defined.

From stdpp Require Import sorting.
Local Open Scope Z_scope.

(** * The selection of a package

    The part of the script between [get_all_packages] and the call of
    [generate_graph_from_package]: the top-level models are filtered out,
    the rest is sorted by name, a dictionary from names to packages is
    built, its keys are offered for selection and the selected name is
    looked up again. *)

(** ** [sorted(l, key=lambda p: p.Name)]

    [sorted] is stable.  Strings are compared character by character; the
    names are taken as their UTF-8 bytes, on which this is the order of the
    code points. *)
Fixpoint insert_by_name (pkg : PackageTree) (l : list PackageTree)
    : list PackageTree :=
  match l with
  | [] => [pkg]
  | x :: l' =>
      if String.leb (Name pkg) (Name x) then pkg :: x :: l'
      else x :: insert_by_name pkg l'
  end.

Definition sorted_by_name (l : list PackageTree) : list PackageTree :=
  foldr insert_by_name [] l.

(** ** A dictionary with string keys

    Insertion-ordered: assigning to a key that is present replaces the
    value where it stands, assigning to a new key appends. *)
Fixpoint dict_set {V} (k : string) (v : V) (d : list (string * V))
    : list (string * V) :=
  match d with
  | [] => [(k, v)]
  | (k', v') :: d' =>
      if bool_decide (k = k') then (k', v) :: d' else (k', v') :: dict_set k v d'
  end.

Fixpoint dict_get {V} (k : string) (d : list (string * V)) : option V :=
  match d with
  | [] => None
  | (k', v') :: d' => if bool_decide (k = k') then Some v' else dict_get k d'
  end.

Definition dict_keys {V} (d : list (string * V)) : list string := d.*1.

(** ** The script *)

(** [[pkg for pkg in all_packages if pkg.ParentID != 0]], then sorted. *)
Definition valid_packages (all_packages : list PackageTree)
    : list PackageTree :=
  sorted_by_name (filter (λ pkg, ParentID pkg ≠ 0) all_packages).

(** [{pkg.Name: pkg for pkg in valid_packages}] *)
Definition package_dict (valid_packages : list PackageTree)
    : list (string * PackageTree) :=
  fold_left (λ d pkg, dict_set (Name pkg) pkg d) valid_packages [].

(** [list(package_dict.keys())], the options of the select box. *)
Definition select_options (all_packages : list PackageTree) : list string :=
  dict_keys (package_dict (valid_packages all_packages)).

(** [package_dict.get(selected_pkg_name)] *)
Definition selected_pkg (all_packages : list PackageTree)
    (selected_pkg_name : string) : option PackageTree :=
  dict_get selected_pkg_name (package_dict (valid_packages all_packages)).

(** ** The dictionary *)

Lemma dict_get_set_eq {V} k (v : V) d : dict_get k (dict_set k v d) = Some v.
Proof.
  induction d as [|[k' v'] d IH]; simpl.
  - by rewrite bool_decide_eq_true_2.
  - case_bool_decide as Hk; simpl.
    + by rewrite bool_decide_eq_true_2.
    + by rewrite bool_decide_eq_false_2.
Qed.

Lemma dict_get_set_ne {V} k k' (v : V) d :
  k ≠ k' → dict_get k (dict_set k' v d) = dict_get k d.
Proof.
  intros Hne. induction d as [|[k'' v''] d IH]; simpl.
  - by rewrite bool_decide_eq_false_2.
  - destruct (decide (k' = k'')) as [<-|Hk].
    + rewrite bool_decide_eq_true_2 by done. simpl.
      by rewrite !bool_decide_eq_false_2.
    + rewrite (bool_decide_eq_false_2 (k' = k'')) by done. simpl.
      by rewrite IH.
Qed.

Lemma dict_keys_set {V} k (v : V) d :
  dict_keys (dict_set k v d)
  = if bool_decide (k ∈ dict_keys d) then dict_keys d else dict_keys d ++ [k].
Proof.
  unfold dict_keys. induction d as [|[k' v'] d IH]; csimpl; [done|].
  destruct (decide (k = k')) as [<-|Hk].
  - rewrite (bool_decide_eq_true_2 (k = k)) by done. csimpl.
    rewrite bool_decide_eq_true_2; [done|]. by left.
  - rewrite (bool_decide_eq_false_2 (k = k')) by done. csimpl. rewrite IH.
    destruct (decide (k ∈ d.*1)) as [Hin|Hin].
    + rewrite !bool_decide_eq_true_2; [done|by right|done].
    + rewrite !bool_decide_eq_false_2; [done| |done].
      by intros [?|?]%elem_of_cons.
Qed.

(** ** The sort *)

Lemma leb_refl s : String.leb s s = true.
Proof.
  pose proof (reflexivity (R:=String.le) s) as Hrefl.
  unfold String.le in Hrefl. by destruct (String.leb s s).
Qed.

(** Stability: the packages of one name keep their order. *)
Lemma filter_insert_by_name n pkg l :
  filter (λ p, Name p = n) (insert_by_name pkg l)
  = if decide (Name pkg = n) then pkg :: filter (λ p, Name p = n) l
    else filter (λ p, Name p = n) l.
Proof.
  induction l as [|x l IH]; simpl.
  { rewrite filter_cons. by case_decide. }
  destruct (String.leb (Name pkg) (Name x)) eqn:Hle.
  - rewrite (filter_cons _ pkg). by case_decide.
  - rewrite !(filter_cons _ x), IH.
    destruct (decide (Name pkg = n)) as [Hp|Hp]; [|done].
    destruct (decide (Name x = n)) as [Hx|Hx]; [|done].
    rewrite Hp, Hx, leb_refl in Hle. done.
Qed.

Lemma filter_sorted_by_name n l :
  filter (λ p, Name p = n) (sorted_by_name l) = filter (λ p, Name p = n) l.
Proof.
  induction l as [|x l IH]; [done|]. simpl.
  rewrite filter_insert_by_name, filter_cons, IH. by case_decide.
Qed.

Lemma insert_by_name_Permutation pkg l : insert_by_name pkg l ≡ₚ pkg :: l.
Proof.
  induction l as [|x l IH]; simpl; [done|].
  destruct (String.leb _ _); [done|]. by rewrite IH, Permutation_swap.
Qed.

Lemma sorted_by_name_Permutation l : sorted_by_name l ≡ₚ l.
Proof.
  induction l as [|x l IH]; [done|]. simpl.
  by rewrite insert_by_name_Permutation, IH.
Qed.

Definition name_le (p q : PackageTree) : Prop := String.le (Name p) (Name q).

Lemma insert_by_name_sorted pkg l :
  StronglySorted name_le l → StronglySorted name_le (insert_by_name pkg l).
Proof.
  induction l as [|x l IH]; intros Hl; simpl.
  { by repeat constructor. }
  apply StronglySorted_cons in Hl as [Hx Hl].
  destruct (String.leb (Name pkg) (Name x)) eqn:Hle.
  - assert (name_le pkg x) as Hpx by (unfold name_le, String.le; by rewrite Hle).
    apply StronglySorted_cons. split; [|by apply StronglySorted_cons].
    constructor; [done|]. eapply Forall_impl; [done|].
    intros y Hxy. unfold name_le in *. by etrans.
  - assert (name_le x pkg) as Hxp.
    { unfold name_le. destruct (total String.le (Name x) (Name pkg)) as [?|Hc];
        [done|]. unfold String.le in Hc. by rewrite Hle in Hc. }
    apply StronglySorted_cons. split; [|by apply IH].
    rewrite insert_by_name_Permutation. by constructor.
Qed.

Lemma sorted_by_name_sorted l : StronglySorted name_le (sorted_by_name l).
Proof.
  induction l as [|x l IH]; simpl; [constructor|].
  by apply insert_by_name_sorted.
Qed.

(** ** The dictionary of the packages *)

Lemma package_dict_get n l d :
  dict_get n (fold_left (λ d pkg, dict_set (Name pkg) pkg d) l d)
  = match last (filter (λ p, Name p = n) l) with
    | Some p => Some p
    | None => dict_get n d
    end.
Proof.
  revert d. induction l as [|x l IH]; intros d; simpl; [done|].
  rewrite IH, filter_cons. case_decide as Hx.
  - rewrite last_cons. destruct (last _); [done|].
    by rewrite <-Hx, dict_get_set_eq.
  - destruct (last _); [done|]. by rewrite dict_get_set_ne.
Qed.

Definition name_lt (a b : string) : Prop := String.le a b ∧ a ≠ b.

Lemma package_dict_keys l d :
  StronglySorted name_le l →
  StronglySorted name_lt (dict_keys d) →
  (∀ k p, k ∈ dict_keys d → p ∈ l → String.le k (Name p)) →
  let keys := dict_keys (fold_left (λ d pkg, dict_set (Name pkg) pkg d) l d) in
  StronglySorted name_lt keys ∧
  ∀ k, k ∈ keys ↔ k ∈ dict_keys d ∨ ∃ p, p ∈ l ∧ Name p = k.
Proof.
  revert d. induction l as [|x l IH]; intros d Hl Hd Hle; simpl.
  { split; [done|]. intros k. split; [by left|].
    intros [?|(p & ?%elem_of_nil & _)]; done. }
  apply StronglySorted_cons in Hl as [Hx Hl].
  rewrite Forall_forall in Hx.
  set (d' := dict_set (Name x) x d).
  assert (∀ k, k ∈ dict_keys d' ↔ k ∈ dict_keys d ∨ k = Name x) as Hkeys.
  { intros k. unfold d'. rewrite dict_keys_set. case_bool_decide as Hin.
    - split; [by left|]. by intros [?| ->].
    - rewrite elem_of_app, list_elem_of_singleton. done. }
  destruct (IH d') as [Hsorted Hmem]; [done| | |].
  - unfold d'. rewrite dict_keys_set. case_bool_decide as Hin; [done|].
    apply StronglySorted_app_2; [|done|by repeat constructor].
    intros k1 k2 Hk1 ->%list_elem_of_singleton. split.
    + apply Hle; [done|by left].
    + by intros ->.
  - intros k p [Hk| ->]%Hkeys Hp.
    + apply Hle; [done|by right].
    + by apply Hx.
  - split; [done|]. intros k. rewrite Hmem, Hkeys. split.
    + intros [[?| ->]|(p & Hp & <-)]; [by left| |].
      * right. exists x. split; [by left|done].
      * right. exists p. split; [by right|done].
    + intros [?|(p & [->|Hp]%elem_of_cons & <-)].
      * by left; left.
      * by left; right.
      * right. by exists p.
Qed.

Lemma selected_pkg_eq all_packages n :
  selected_pkg all_packages n
  = last (filter (λ p, Name p = n)
            (filter (λ pkg, ParentID pkg ≠ 0) all_packages)).
Proof.
  unfold selected_pkg, package_dict, valid_packages.
  rewrite package_dict_get, filter_sorted_by_name. by destruct (last _).
Qed.

Lemma select_options_spec all_packages :
  StronglySorted name_lt (select_options all_packages) ∧
  ∀ n, n ∈ select_options all_packages ↔
       ∃ p, p ∈ all_packages ∧ ParentID p ≠ 0 ∧ Name p = n.
Proof.
  unfold select_options, package_dict, valid_packages.
  destruct (package_dict_keys
              (sorted_by_name (filter (λ pkg, ParentID pkg ≠ 0) all_packages)) [])
    as [Hsorted Hmem].
  - apply sorted_by_name_sorted.
  - constructor.
  - by intros k p ?%elem_of_nil.
  - split; [done|]. intros n. rewrite Hmem. split.
    + intros [?%elem_of_nil|(p & Hp & <-)]; [done|].
      rewrite sorted_by_name_Permutation in Hp.
      apply list_elem_of_filter in Hp as [? ?]. by exists p.
    + intros (p & Hp & Hroot & <-). right. exists p. split; [|done].
      rewrite sorted_by_name_Permutation. by apply list_elem_of_filter.
Qed.

(** X14. The names offered for selection are in strictly increasing order,
    so none is offered twice, and they are exactly the names of the packages
    that are not top-level models. *)
Theorem select_options_sorted_and_distinct all_packages :
  StronglySorted (λ a b, String.le a b ∧ a ≠ b) (select_options all_packages) ∧
  ∀ n, n ∈ select_options all_packages ↔
       ∃ p, p ∈ all_packages ∧ ParentID p ≠ 0 ∧ Name p = n.
Proof. apply select_options_spec. Qed.

(** X15. Of the packages that bear the selected name and are not top-level
    models, the one collected last is the one that is looked up: when
    several packages share a name, the earlier ones cannot be selected. *)
Theorem selected_pkg_is_last_of_name all_packages n :
  selected_pkg all_packages n
  = last (filter (λ p, Name p = n)
            (filter (λ pkg, ParentID pkg ≠ 0) all_packages)).
Proof. apply selected_pkg_eq. Qed.

(** X16. A name taken from the options is always found again: the look-up
    gives a package of that name that was collected and is not a top-level
    model, so the branch for a package that could not be found is not
    taken; a name that is not among the options is not found. *)
Theorem offered_name_is_found all_packages n :
  (n ∈ select_options all_packages →
   ∃ pkg, selected_pkg all_packages n = Some pkg ∧
          Name pkg = n ∧ ParentID pkg ≠ 0 ∧ pkg ∈ all_packages) ∧
  (n ∉ select_options all_packages → selected_pkg all_packages n = None).
Proof.
  rewrite selected_pkg_eq.
  destruct (select_options_spec all_packages) as [_ Hmem].
  assert (∀ pkg, last (filter (λ p, Name p = n)
                   (filter (λ pkg, ParentID pkg ≠ 0) all_packages)) = Some pkg →
                 Name pkg = n ∧ ParentID pkg ≠ 0 ∧ pkg ∈ all_packages) as Hlast.
  { intros pkg Hpkg.
    apply last_Some_elem_of, list_elem_of_filter in Hpkg as [? Hin].
    by apply list_elem_of_filter in Hin as [? ?]. }
  split.
  - intros (p & Hp & Hroot & Hn)%Hmem.
    destruct (last _) as [pkg|] eqn:Hpkg; [by exists pkg; split; [|apply Hlast]|].
    apply last_None in Hpkg.
    assert (p ∈ filter (λ p, Name p = n)
                  (filter (λ pkg, ParentID pkg ≠ 0) all_packages)) as Hin.
    { apply list_elem_of_filter. split; [done|]. by apply list_elem_of_filter. }
    rewrite Hpkg in Hin. by apply elem_of_nil in Hin.
  - intros Hn. destruct (last _) as [pkg|] eqn:Hpkg; [|done].
    destruct Hn. apply Hmem. exists pkg.
    destruct (Hlast pkg eq_refl) as (? & ? & ?). done.
Qed.

Lemma offered_name_is_found_witness :
  ∃ pkg, selected_pkg (get_all_packages [SampleTree.model]) "Sales" = Some pkg ∧
         Name pkg = "Sales" ∧ ParentID pkg ≠ 0 ∧
         pkg ∈ get_all_packages [SampleTree.model].
Proof.
  destruct (offered_name_is_found (get_all_packages [SampleTree.model]) "Sales")
    as [H1 _].
  apply H1. vm_compute. list_member.
Defined.
